(** * simple-rlp: the RLP serializer of [rlp_serializer.c], embedded and verified

    The C functions are translated one for one.  Memory is a flat array of
    bytes indexed by address; a pointer is an address and [NULL] is address 0.
    [size_t] is 64 bits wide, [int] 32 bits wide, two's complement, and
    [RlpType_t], an enumeration without a negative enumerator, an [unsigned
    int] of 32 bits; every conversion and every wrap-around of the integers
    of the source is written out.  Addresses are integers, and the sum of a
    pointer and a size is the exact sum: it is the sum the machine computes
    for a span inside the address space (address plus size below 2^64),
    where C objects lie; [span_in_space] states it of a span where a
    statement concludes from where two spans of any size lie that the overlap
    test reports them.  A store
    through [rlpOut] past the end of the destination buffer lands on the next
    address of the flat memory, as it does on the machine.  The element
    structures and the array of pointers to them are values of their own:
    only the bytes the [buff] pointers designate and the destination live in
    the byte memory.

    A call yields [Some (ret, m)], the [int] returned and the memory left
    behind, or [None] when it does not return (one loop of the source runs
    forever on a negative [int]). *)

From Stdlib Require Import ZArith List Bool Lia Ascii.
Import ListNotations.
Local Open Scope Z_scope.

(* -------------------------------------------------------------------------- *)
(** ** Machine integers *)

Definition to_uint8 (z : Z) : Z := z mod 2 ^ 8.
Definition to_size_t (z : Z) : Z := z mod 2 ^ 64.
(** Conversion to [int]: reduction modulo 2^32 into [-2^31, 2^31). *)
Definition to_int (z : Z) : Z := (z + 2 ^ 31) mod 2 ^ 32 - 2 ^ 31.
(** Conversion to [unsigned int], the type behind [RlpType_t]. *)
Definition to_unsigned_int (z : Z) : Z := z mod 2 ^ 32.

(* -------------------------------------------------------------------------- *)
(** ** Memory *)

Definition mem := Z -> Z.
Definition NULL : Z := 0.

Definition store (m : mem) (a v : Z) : mem :=
  fun x => if x =? a then v else m x.

(** [memcpy(dst, src, n)].  C leaves the copy undefined when the two spans
    overlap; here the [n] source bytes are read before any is written. *)
Definition memcpy (m : mem) (dst src n : Z) : mem :=
  fun x => if (dst <=? x) && (x <? dst + n) then m (src + (x - dst)) else m x.

(** The [n] bytes found at address [a]. *)
Definition read_bytes (m : mem) (a : Z) (n : nat) : list Z :=
  map (fun i => m (a + Z.of_nat i)) (seq 0 n).

(* -------------------------------------------------------------------------- *)
(** ** rlp_serializer.h *)

Inductive RlpType_t :=
| RLP_TYPE_INVALID
| RLP_TYPE_BYTE_ARRAY
| RLP_TYPE_INT8
| RLP_TYPE_INT16
| RLP_TYPE_INT32
| RLP_TYPE_INT64
| RLP_TYPE_INT128
| RLP_TYPE_INT256
| RLP_TYPE_INT512
| RLP_TYPE_INT1024.

(** The enumerator values, counted from 0 as C does. *)
Definition type_code (t : RlpType_t) : Z :=
  match t with
  | RLP_TYPE_INVALID => 0
  | RLP_TYPE_BYTE_ARRAY => 1
  | RLP_TYPE_INT8 => 2
  | RLP_TYPE_INT16 => 3
  | RLP_TYPE_INT32 => 4
  | RLP_TYPE_INT64 => 5
  | RLP_TYPE_INT128 => 6
  | RLP_TYPE_INT256 => 7
  | RLP_TYPE_INT512 => 8
  | RLP_TYPE_INT1024 => 9
  end.

Definition RLP_TYPE_IS_INTEGER_TYPE (x : RlpType_t) : bool :=
  (type_code x >=? type_code RLP_TYPE_INT8) &&
  (type_code x <=? type_code RLP_TYPE_INT1024).

Record RlpElement_t := mkRlpElement {
  type : RlpType_t;
  len : Z;
  buff : Z
}.

Definition INT8_MIN : Z := -128.
Definition ERR_RLP_EUNKNOWN : Z := INT8_MIN.
Definition ERR_RLP_EBADARG : Z := INT8_MIN + 1.
Definition ERR_RLP_EILLEGALMEM : Z := INT8_MIN + 2.
Definition ERR_RLP_ENOMEM : Z := INT8_MIN + 3.
Definition ERR_RLP_OK : Z := 0.

(* -------------------------------------------------------------------------- *)
(** ** rlp_serializer.c: constants and utilities *)

Definition RLP_EXTENDED_LENGTH_THRESHOLD : Z := 55.
Definition RLP_OFFSET_LIST_SHORT : Z := 0xC0.
Definition RLP_OFFSET_LIST_LONG : Z := 0xF7.
Definition RLP_OFFSET_ITEM_SHORT : Z := 0x80.
Definition RLP_OFFSET_ITEM_LONG : Z := 0xB7.

(** [aAddr + sza] and [bAddr + szb] are the exact sums: what the source
    computes when the two spans lie inside the address space. *)
Definition rlp_memoverlap (a sza b szb : Z) : bool :=
  let aAddr := a in
  let bAddr := b in
  (aAddr =? bAddr) ||
  ((aAddr <? bAddr) && (aAddr + sza >=? bAddr)) ||
  ((bAddr <? aAddr) && (bAddr + szb >=? aAddr)).

Definition rlp_int_size_from_type (t : RlpType_t) : Z :=
  match t with
  | RLP_TYPE_INT8 => 1
  | RLP_TYPE_INT16 => 2
  | RLP_TYPE_INT32 => 4
  | RLP_TYPE_INT64 => 8
  | RLP_TYPE_INT128 => 16
  | RLP_TYPE_INT256 => 32
  | RLP_TYPE_INT512 => 64
  | RLP_TYPE_INT1024 => 128
  | _ => ERR_RLP_EBADARG
  end.

Definition type_eqb (s t : RlpType_t) : bool := type_code s =? type_code t.

(** [buffSz == rlp_int_size_from_type(type)] compares a [size_t] with an
    [int], which C first converts to [size_t]. *)
Definition rlp_type_mem_check (buffSz : Z) (t : RlpType_t) : bool :=
  if RLP_TYPE_IS_INTEGER_TYPE t
  then buffSz =? to_size_t (rlp_int_size_from_type t)
  else if type_eqb t RLP_TYPE_BYTE_ARRAY then true
  else false.

(* -------------------------------------------------------------------------- *)
(** ** rlp_encode_element *)

(** The leading-zero scan over an integer element.  The state is the pair
    ([rlpElementBuff], [rlpElementLen]); [n] counts the iterations left, the
    loop runs at most [len] times. *)
Fixpoint scan_zero_loop (n : nat) (m : mem) (buffBase len0 scanZero : Z)
    (st : Z * Z) : Z * Z :=
  match n with
  | O => st
  | S n' =>
    if scanZero <? len0 then
      if negb (m (buffBase + scanZero) =? 0) then
        (buffBase + scanZero, to_size_t (snd st - scanZero))
      else if scanZero =? to_size_t (len0 - 1) then
        scan_zero_loop n' m buffBase len0 (scanZero + 1) (fst st, 0)
      else
        scan_zero_loop n' m buffBase len0 (scanZero + 1) st
    else st
  end.

Definition scan_zero (m : mem) (e : RlpElement_t) : Z * Z :=
  scan_zero_loop (Z.to_nat (len e)) m (buff e) (len e) 0 (buff e, len e).

(** [while (tmpLength != 0) { ++lengthOfLength; tmpLength = tmpLength >> 8; }]
    on an [int]: the right shift is arithmetic, so a negative [tmpLength]
    never reaches 0.  [None] is the loop still running when the fuel is spent. *)
Fixpoint length_of_length_loop (fuel : nat) (tmpLength lengthOfLength : Z)
    : option Z :=
  match fuel with
  | O => None
  | S fuel' =>
    if negb (tmpLength =? 0)
    then length_of_length_loop fuel' (Z.shiftr tmpLength 8) (lengthOfLength + 1)
    else Some lengthOfLength
  end.

(** A non-negative [int] is 0 after four shifts by 8; the fifth round is the
    last test of the condition. *)
Definition int_shift_fuel : nat := 5.

(** [for (int i = lengthOfLength; i > 0; --i) { rlpOut[i] = (uint8_t)
    tmpLength; tmpLength = tmpLength >> 8; }] *)
Fixpoint write_length_loop (n : nat) (m : mem) (rlpOut i tmpLength : Z) : mem :=
  match n with
  | O => m
  | S n' =>
    if i >? 0 then
      write_length_loop n' (store m (rlpOut + i) (to_uint8 tmpLength))
        rlpOut (i - 1) (Z.shiftr tmpLength 8)
    else m
  end.

(** [rlpElementBuff] and [rlpElementLen] as they stand when the header is
    generated: the whole source, or what the scan left of an integer. *)
Definition canonical_view (m : mem) (e : RlpElement_t) : Z * Z :=
  if RLP_TYPE_IS_INTEGER_TYPE (type e) then scan_zero m e
  else (buff e, len e).

(** The result of a call: the [int] returned and the memory left behind, or
    [None] when the call does not return.

    [element_body] is the function from the declaration of [rlpOut] on,
    [rlp_encode_element] the three checks in front of it. *)
Definition element_body (rlpEncodedOutput rlpEncodedOutputLen : Z)
    (e : RlpElement_t) (m : mem) : option (Z * mem) :=
  let rlpOut := rlpEncodedOutput in
  let '(rlpElementBuff, rlpElementLen) := canonical_view m e in
  if rlpElementLen =? 0 then
    Some (to_int 1, store m rlpOut (to_uint8 RLP_OFFSET_ITEM_SHORT))
  else if (rlpElementLen =? 1) &&
          ((m rlpElementBuff =? 0x00) ||
           (m rlpElementBuff <? RLP_OFFSET_ITEM_SHORT)) then
    Some (to_int 1, store m rlpOut (m rlpElementBuff))
  else if rlpElementLen <=? RLP_EXTENDED_LENGTH_THRESHOLD then
    let length := to_uint8 (RLP_OFFSET_ITEM_SHORT + rlpElementLen) in
    let m1 := store m rlpOut length in
    let m2 := memcpy m1 (rlpOut + 1) rlpElementBuff rlpElementLen in
    Some (to_int (to_size_t (rlpElementLen + 1)), m2)
  else
    match length_of_length_loop int_shift_fuel (to_int rlpElementLen) 0 with
    | None => None
    | Some lengthOfLength =>
      if rlpEncodedOutputLen <? to_size_t (rlpElementLen + lengthOfLength + 1)
      then Some (ERR_RLP_ENOMEM, m)
      else
        let m1 :=
          store m rlpOut (to_uint8 (RLP_OFFSET_ITEM_LONG + lengthOfLength)) in
        let m2 :=
          write_length_loop (Z.to_nat (to_int lengthOfLength)) m1 rlpOut
            (to_int lengthOfLength) (to_int rlpElementLen) in
        let m3 :=
          memcpy m2 (rlpOut + 1 + lengthOfLength) rlpElementBuff
            (to_size_t (rlpElementLen + lengthOfLength + 1)) in
        Some (to_int (to_size_t (rlpElementLen + lengthOfLength + 1)), m3)
    end.

Definition rlp_encode_element (rlpEncodedOutput rlpEncodedOutputLen : Z)
    (rlpElement : option RlpElement_t) (m : mem) : option (Z * mem) :=
  match rlpElement with
  | None => Some (ERR_RLP_EBADARG, m)
  | Some e =>
    if (rlpEncodedOutput =? NULL) || (rlpEncodedOutputLen =? 0) ||
       type_eqb (type e) RLP_TYPE_INVALID ||
       negb (rlp_type_mem_check (len e) (type e))
    then Some (ERR_RLP_EBADARG, m)
    else if rlpEncodedOutputLen <? to_size_t (len e + 1)
    then Some (ERR_RLP_ENOMEM, m)
    else if rlp_memoverlap rlpEncodedOutput rlpEncodedOutputLen (buff e) (len e)
    then Some (ERR_RLP_EILLEGALMEM, m)
    else element_body rlpEncodedOutput rlpEncodedOutputLen e m
  end.

(* -------------------------------------------------------------------------- *)
(** ** rlp_encode_list *)

(** The array of element pointers and its count are a list; a [NULL] array
    is [None].  The first loop: [Some err] is the error it returns with,
    [None] is the loop running to its end. *)
Fixpoint preflight (rlpEncodedOutput rlpEncodedOutputLen : Z)
    (es : list RlpElement_t) (spaceRemaining : Z) : option Z :=
  match es with
  | [] => None
  | e :: es' =>
    if spaceRemaining <? to_size_t (len e + 1) then Some ERR_RLP_ENOMEM
    else
      let spaceRemaining' :=
        to_size_t (spaceRemaining - to_size_t (len e + 1)) in
      if rlp_memoverlap rlpEncodedOutput rlpEncodedOutputLen (buff e) (len e)
      then Some ERR_RLP_EILLEGALMEM
      else preflight rlpEncodedOutput rlpEncodedOutputLen es' spaceRemaining'
  end.

(** How the second loop ends: by [return ret] from inside it, or by running
    to its end with [rlpEncodedLen] bytes of payload written. *)
Inductive pass_result :=
| Returned (ret : Z) (m : mem)
| Completed (rlpEncodedLen : Z) (m : mem).

Fixpoint encode_each (rlpOut rlpEncodedOutputLen : Z) (es : list RlpElement_t)
    (rlpEncodedLen : Z) (m : mem) : option pass_result :=
  match es with
  | [] => Some (Completed rlpEncodedLen m)
  | e :: es' =>
    match rlp_encode_element (rlpOut + rlpEncodedLen)
            (to_size_t (rlpEncodedOutputLen - rlpEncodedLen)) (Some e) m with
    | None => None
    | Some (ret, m') =>
      if ret <? 0 then Some (Returned ret m')
      else encode_each rlpOut rlpEncodedOutputLen es'
             (to_size_t (rlpEncodedLen + ret)) m'
    end
  end.

(** [for (int byteShifts = rlpEncodedLen; byteShifts > 0; byteShifts =
    byteShifts >> 8) listHdrByteCnt++;] with [listHdrByteCnt] a [uint8_t]. *)
Fixpoint list_hdr_count_loop (fuel : nat) (byteShifts listHdrByteCnt : Z)
    : option Z :=
  match fuel with
  | O => None
  | S fuel' =>
    if byteShifts >? 0
    then list_hdr_count_loop fuel' (Z.shiftr byteShifts 8)
           (to_uint8 (listHdrByteCnt + 1))
    else Some listHdrByteCnt
  end.

(** [for (int i = listHdrByteCnt + rlpEncodedLen; i >= listHdrByteCnt; i--)
    rlpOut[i] = rlpOut[i - listHdrByteCnt];] *)
Fixpoint shift_loop (n : nat) (m : mem) (rlpOut listHdrByteCnt i : Z) : mem :=
  match n with
  | O => m
  | S n' =>
    if i >=? listHdrByteCnt then
      shift_loop n' (store m (rlpOut + i) (m (rlpOut + (i - listHdrByteCnt))))
        rlpOut listHdrByteCnt (i - 1)
    else m
  end.

(** [for (int i = 0; i < listHdrByteCnt; i++) rlpOut[(listHdrByteCnt - 1) - i]
    = (uint8_t) (rlpEncodedLen >> (8 * i));] *)
Fixpoint list_header_loop (n : nat) (m : mem)
    (rlpOut listHdrByteCnt rlpEncodedLen i : Z) : mem :=
  match n with
  | O => m
  | S n' =>
    if i <? listHdrByteCnt then
      list_header_loop n'
        (store m (rlpOut + ((listHdrByteCnt - 1) - i))
           (to_uint8 (Z.shiftr rlpEncodedLen (8 * i))))
        rlpOut listHdrByteCnt rlpEncodedLen (i + 1)
    else m
  end.

(** [list_finish] is the function from the header byte count on: the count,
    the capacity check, the shift and the header. *)
Definition list_finish (rlpOut rlpEncodedOutputLen rlpEncodedLen : Z)
    (m1 : mem) : option (Z * mem) :=
  match list_hdr_count_loop int_shift_fuel (to_int rlpEncodedLen) 0 with
  | None => None
  | Some cnt0 =>
    let listHdrByteCnt :=
      if rlpEncodedLen >? RLP_EXTENDED_LENGTH_THRESHOLD
      then to_uint8 (cnt0 + 1) else cnt0 in
    if to_size_t (listHdrByteCnt + rlpEncodedLen) >? rlpEncodedOutputLen
    then Some (ERR_RLP_ENOMEM, m1)
    else
      let i0 := to_int (to_size_t (listHdrByteCnt + rlpEncodedLen)) in
      let m2 :=
        shift_loop (Z.to_nat (i0 - listHdrByteCnt + 1)) m1 rlpOut
          listHdrByteCnt i0 in
      let m3 :=
        if rlpEncodedLen >? RLP_EXTENDED_LENGTH_THRESHOLD then
          store
            (list_header_loop (Z.to_nat listHdrByteCnt) m2 rlpOut
               listHdrByteCnt rlpEncodedLen 0)
            rlpOut
            (to_uint8 (RLP_OFFSET_LIST_LONG + (listHdrByteCnt - 1)))
        else
          store m2 rlpOut (to_uint8 (RLP_OFFSET_LIST_SHORT + rlpEncodedLen)) in
      Some (to_int (to_size_t (rlpEncodedLen + listHdrByteCnt)), m3)
  end.

Definition rlp_encode_list (rlpEncodedOutput rlpEncodedOutputLen : Z)
    (rlpElementsArr : option (list RlpElement_t)) (m : mem)
    : option (Z * mem) :=
  match rlpElementsArr with
  | None => Some (ERR_RLP_EBADARG, m)
  | Some es =>
    if (rlpEncodedOutput =? NULL) || (rlpEncodedOutputLen =? 0)
    then Some (ERR_RLP_EBADARG, m)
    else
      match preflight rlpEncodedOutput rlpEncodedOutputLen es
              rlpEncodedOutputLen with
      | Some err => Some (err, m)
      | None =>
        let rlpOut := rlpEncodedOutput in
        match encode_each rlpOut rlpEncodedOutputLen es 0 m with
        | None => None
        | Some (Returned ret m') => Some (ret, m')
        | Some (Completed rlpEncodedLen m1) =>
          list_finish rlpOut rlpEncodedOutputLen rlpEncodedLen m1
        end
      end
  end.

(* -------------------------------------------------------------------------- *)
(** ** The wire format, in the words of the specification *)

(** [K], the minimal number of bytes that represent [n] in big-endian with no
    leading zero. *)
Definition byte_length (n : Z) : Z :=
  if n <=? 0 then 0 else Z.log2 n / 8 + 1.

(** The [k]-byte big-endian encoding of [n], most significant byte first. *)
Fixpoint be_bytes (k : nat) (n : Z) : list Z :=
  match k with
  | O => []
  | S k' => be_bytes k' (n / 256) ++ [n mod 256]
  end.

(** The suffix starting at the first non-zero byte. *)
Fixpoint strip_leading_zeros (l : list Z) : list Z :=
  match l with
  | [] => []
  | b :: l' => if b =? 0 then strip_leading_zeros l' else l
  end.

(** The canonical payload of an element: its source bytes, with the leading
    zero bytes dropped when it is an integer. *)
Definition canonical_payload (m : mem) (e : RlpElement_t) : list Z :=
  let raw := read_bytes m (buff e) (Z.to_nat (len e)) in
  if RLP_TYPE_IS_INTEGER_TYPE (type e) then strip_leading_zeros raw else raw.

(** Item header encoding of a payload of length [L] (section 4.2). *)
Definition rlp_item (payload : list Z) : list Z :=
  let L := Z.of_nat (length payload) in
  if L =? 0 then [0x80]
  else if (L =? 1) && (hd 0 payload <? 0x80) then payload
  else if L <=? 55 then (0x80 + L) :: payload
  else (0xB7 + byte_length L)
         :: be_bytes (Z.to_nat (byte_length L)) L ++ payload.

(** List header for a total payload length (section 4.3, step 5). *)
Definition rlp_list_header (total : Z) : list Z :=
  if total <=? 55 then [0xC0 + total]
  else (0xF7 + byte_length total)
         :: be_bytes (Z.to_nat (byte_length total)) total.

(** The item encodings of the elements, one after the other. *)
Definition list_payload (m : mem) (es : list RlpElement_t) : list Z :=
  concat (map (fun e => rlp_item (canonical_payload m e)) es).

(** The number a sequence of bytes stands for in big-endian. *)
Definition be_value (l : list Z) : Z :=
  fold_left (fun acc b => acc * 256 + b) l 0.

(* -------------------------------------------------------------------------- *)
(** ** main.c: debug_hexstring *)

(** The digits of [printf]'s [%x]. *)
Definition hex_digit (d : Z) : ascii :=
  nth (Z.to_nat d)
    [ "0"; "1"; "2"; "3"; "4"; "5"; "6"; "7";
      "8"; "9"; "a"; "b"; "c"; "d"; "e"; "f" ]%char "?"%char.

(** [printf("%x", v)] for an [unsigned int]: the hexadecimal digits of [v],
    lower case, no leading zero, at least one digit; there are at most
    eight. *)
Fixpoint printf_x_loop (n : nat) (v : Z) (acc : list ascii) : list ascii :=
  match n with
  | O => acc
  | S n' =>
    let acc' := hex_digit (v mod 16) :: acc in
    if v / 16 =? 0 then acc' else printf_x_loop n' (v / 16) acc'
  end.

Definition printf_x (v : Z) : list ascii := printf_x_loop 8 v [].

(** [for (unsigned long int i = 1; i <= b; i++) { if(a[i-1] < 0x10)
    printf("0%x",a[i-1]); else printf("%x",a[i-1]); }]  The result is what
    the loop prints; [None] is the loop still running when the fuel is
    spent, which it is when [b] is [ULONG_MAX] and [i] wraps. *)
Fixpoint debug_hexstring_loop (fuel : nat) (m : mem) (a i b : Z)
    : option (list ascii) :=
  match fuel with
  | O => None
  | S fuel' =>
    if i <=? b then
      let out :=
        if m (a + (i - 1)) <? 0x10
        then "0"%char :: printf_x (m (a + (i - 1)))
        else printf_x (m (a + (i - 1))) in
      match debug_hexstring_loop fuel' m a (to_size_t (i + 1)) b with
      | Some rest => Some (out ++ rest)
      | None => None
      end
    else Some []
  end.

(** [unsigned long] is 64 bits wide, as [size_t] is.  One round for each of
    the [b] bytes and one for the test that ends the loop. *)
Definition debug_hexstring (address nBytes : Z) (m : mem)
    : option (list ascii) :=
  let a := address in
  let b := to_size_t nBytes in
  if (NULL =? a) || (b <=? 0) then Some []
  else debug_hexstring_loop (S (Z.to_nat b)) m a 1 b.

(** A byte in two hexadecimal digits. *)
Definition two_hex (v : Z) : list ascii :=
  [hex_digit (v / 16); hex_digit (v mod 16)].

(* -------------------------------------------------------------------------- *)
(** ** A reference decoder

    The source has no decoder; this one reads the wire format back, to state
    that the bytes the encoder writes determine what was encoded. *)

(** One item off the front of [enc]: its payload and the bytes after it. *)
Definition rlp_item_decode (enc : list Z) : option (list Z * list Z) :=
  match enc with
  | [] => None
  | h :: t =>
    if h <? 0x80 then Some ([h], t)
    else if h <=? 0xB7 then
      let L := Z.to_nat (h - 0x80) in
      if (L <=? length t)%nat then Some (firstn L t, skipn L t) else None
    else if h <=? 0xBF then
      let K := Z.to_nat (h - 0xB7) in
      let L := Z.to_nat (be_value (firstn K t)) in
      let t' := skipn K t in
      if (L <=? length t')%nat then Some (firstn L t', skipn L t') else None
    else None
  end.

(** Items until [enc] is used up; every item takes at least one byte, so a
    fuel of the length of [enc] is enough. *)
Fixpoint rlp_items_decode (fuel : nat) (enc : list Z)
    : option (list (list Z)) :=
  match enc with
  | [] => Some []
  | _ :: _ =>
    match fuel with
    | O => None
    | S fuel' =>
      match rlp_item_decode enc with
      | Some (P, rest) => option_map (cons P) (rlp_items_decode fuel' rest)
      | None => None
      end
    end
  end.

(** A list: its header, then items for exactly the length the header says. *)
Definition rlp_list_decode (enc : list Z) : option (list (list Z)) :=
  match enc with
  | [] => None
  | h :: t =>
    if h <? 0xC0 then None
    else if h <=? 0xF7 then
      if Z.of_nat (length t) =? h - 0xC0
      then rlp_items_decode (length t) t else None
    else
      let K := Z.to_nat (h - 0xF7) in
      let body := skipn K t in
      if be_value (firstn K t) =? Z.of_nat (length body)
      then rlp_items_decode (length body) body else None
  end.

(* -------------------------------------------------------------------------- *)
(** ** Notions the statements use *)

(** The values of a [size_t]. *)
Definition size_t_range (z : Z) : Prop := 0 <= z < 2 ^ 64.

(** A span inside the address space: the address just after it is still an
    address, so that the pointer sum of the source does not wrap. *)
Definition span_in_space (a sz : Z) : Prop :=
  0 <= a /\ 0 <= sz /\ a + sz < 2 ^ 64.

(** Two address ranges intersect when they share an address. *)
Definition regions_intersect (a sza b szb : Z) : Prop :=
  exists x, a <= x < a + sza /\ b <= x < b + szb.

(** The argument checks of [rlp_encode_element] pass. *)
Definition element_args_ok (out outLen : Z) (e : RlpElement_t) : Prop :=
  out <> NULL /\ outLen <> 0 /\ type e <> RLP_TYPE_INVALID /\
  rlp_type_mem_check (len e) (type e) = true.

(** An element as the encoder accepts it: a byte string, or an integer
    whose declared length is the width of its type. *)
Definition element_valid (e : RlpElement_t) : Prop :=
  type e <> RLP_TYPE_INVALID /\ rlp_type_mem_check (len e) (type e) = true /\
  0 <= len e.

(** The bytes [rlp_encode_element] writes beyond the encoding of a payload of
    length [L]: the long form copies [lengthOfLength + 1] bytes too many. *)
Definition item_slack (L : Z) : Z :=
  if L >? RLP_EXTENDED_LENGTH_THRESHOLD then byte_length L + 1 else 0.

(** The space the first loop of [rlp_encode_list] asks for: the declared
    length of every element plus one. *)
Definition space_needed (es : list RlpElement_t) : Z :=
  fold_right (fun e s => len e + 1 + s) 0 es.

(** Room for every element in whatever form: declared length, header byte
    and up to four length bytes. *)
Definition space_ample (es : list RlpElement_t) : Z :=
  fold_right (fun e s => len e + 5 + s) 0 es.

(** The memory a call leaves behind; the memory before it when it does not
    return. *)
Definition mem_after (r : option (Z * mem)) (m : mem) : mem :=
  match r with
  | Some (_, m') => m'
  | None => m
  end.

(* -------------------------------------------------------------------------- *)
(** ** Inputs the statements are tried on *)

(** The bytes [l] at address [base], the byte [dflt] everywhere else. *)
Definition mem_of (base : Z) (l : list Z) (dflt : Z) : mem :=
  fun a =>
    if (base <=? a) && (a <? base + Z.of_nat (length l))
    then nth (Z.to_nat (a - base)) l dflt else dflt.

(** Three fields in the manner of the demonstration transaction: a 32-bit
    gas price of 1000000, a three-byte string and an empty field. *)
Definition tx_mem : mem := mem_of 2000 [0; 15; 66; 64; 99; 111; 103] 170.
Definition tx_fields : list RlpElement_t :=
  [ mkRlpElement RLP_TYPE_INT32 4 2000;
    mkRlpElement RLP_TYPE_BYTE_ARRAY 3 2004;
    mkRlpElement RLP_TYPE_BYTE_ARRAY 0 NULL ].

(** The gas price field alone, and a width that matches no integer type. *)
Definition gas_price : RlpElement_t := mkRlpElement RLP_TYPE_INT32 4 2000.
Definition bad_width : RlpElement_t := mkRlpElement RLP_TYPE_INT16 3 2004.

(** A one-byte string holding 0x05. *)
Definition five_mem : mem := mem_of 2000 [5] 170.
Definition five : RlpElement_t := mkRlpElement RLP_TYPE_BYTE_ARRAY 1 2000.

(** A 56-byte string of 0x11 at address 2000, followed in memory by the bytes
    0x22 and 0x23. *)
Definition long_mem : mem := mem_of 2000 (repeat 17 56 ++ [34; 35]) 170.
Definition long_string : RlpElement_t :=
  mkRlpElement RLP_TYPE_BYTE_ARRAY 56 2000.

(** A 512-bit integer of 64 bytes 0x11 at address 1067, the byte 0x22
    everywhere else: a destination of 66 bytes at address 1000 ends at 1065,
    one free byte before the integer. *)
Definition int512_mem : mem := mem_of 1067 (repeat 17 64) 34.
Definition int512 : RlpElement_t := mkRlpElement RLP_TYPE_INT512 64 1067.

(** The one-byte string [01] at address 2000, and the bytes AA BB CC at
    addresses 1000 to 1002. *)
Definition one_mem : mem := store (mem_of 1000 [170; 187; 204] 0) 2000 1.
Definition one : RlpElement_t := mkRlpElement RLP_TYPE_BYTE_ARRAY 1 2000.

(* -------------------------------------------------------------------------- *)
(** ** rlp_int_type_from_size *)

(** An [int] taken for an [RlpType_t], as the loop of
    [rlp_int_type_from_size] does with its counter.  A value that is no
    enumerator falls into the [default] of every [switch], as
    [RLP_TYPE_INVALID] does. *)
Definition type_of_code (z : Z) : RlpType_t :=
  match z with
  | 1 => RLP_TYPE_BYTE_ARRAY
  | 2 => RLP_TYPE_INT8
  | 3 => RLP_TYPE_INT16
  | 4 => RLP_TYPE_INT32
  | 5 => RLP_TYPE_INT64
  | 6 => RLP_TYPE_INT128
  | 7 => RLP_TYPE_INT256
  | 8 => RLP_TYPE_INT512
  | 9 => RLP_TYPE_INT1024
  | _ => RLP_TYPE_INVALID
  end.

(** [for(int i = RLP_TYPE_INT8; i <= RLP_TYPE_INT1024; i++) { if(s ==
    rlp_int_size_from_type(i)) return i; } return ERR_RLP_EBADARG;]  The
    function returns an [RlpType_t]: both [return] statements convert their
    [int] to it, and the value is given as the integer the caller receives,
    which is no enumerator when it comes from the error code. *)
Fixpoint rlp_int_type_from_size_loop (n : nat) (s i : Z) : Z :=
  match n with
  | O => to_unsigned_int ERR_RLP_EBADARG
  | S n' =>
    if i <=? type_code RLP_TYPE_INT1024 then
      if s =? rlp_int_size_from_type (type_of_code i) then to_unsigned_int i
      else rlp_int_type_from_size_loop n' s (i + 1)
    else to_unsigned_int ERR_RLP_EBADARG
  end.

(** The counter runs over the eight integer types. *)
Definition rlp_int_type_from_size (s : Z) : Z :=
  rlp_int_type_from_size_loop 8 s (type_code RLP_TYPE_INT8).

(** The widths [rlp_int_size_from_type] knows. *)
Definition integer_widths : list Z := [1; 2; 4; 8; 16; 32; 64; 128].


(** The memory the three fields leave behind in a destination of 100 bytes
    at address 1000. *)
Definition tx_after : mem :=
  mem_after (rlp_encode_list 1000 100 (Some tx_fields) tx_mem) tx_mem.

(** A byte string of 2 GiB at address 2^40, for a destination of one byte
    more at address 1000; the bytes do not matter. *)
Definition huge_string : RlpElement_t :=
  mkRlpElement RLP_TYPE_BYTE_ARRAY (2 ^ 31) (2 ^ 40).
Definition zero_mem : mem := fun _ => 0.


(** The three-byte string of the transaction fields alone. *)
Definition cog : RlpElement_t := mkRlpElement RLP_TYPE_BYTE_ARRAY 3 2004.

(* -------------------------------------------------------------------------- *)
(** ** Machine integers: conversions that preserve the value *)

Ltac zlia := Z.div_mod_to_equations; lia.

Lemma to_int_small z : - 2 ^ 31 <= z < 2 ^ 31 -> to_int z = z.
Proof. unfold to_int. intros. zlia. Qed.

Lemma to_int_range z : - 2 ^ 31 <= to_int z < 2 ^ 31.
Proof. unfold to_int. zlia. Qed.

Lemma to_size_t_small z : 0 <= z < 2 ^ 64 -> to_size_t z = z.
Proof. unfold to_size_t. intros. zlia. Qed.

Lemma to_uint8_small z : 0 <= z < 256 -> to_uint8 z = z.
Proof. unfold to_uint8. intros. zlia. Qed.

Lemma shiftr_8 z : Z.shiftr z 8 = z / 256.
Proof. rewrite Z.shiftr_div_pow2 by lia. reflexivity. Qed.

(* -------------------------------------------------------------------------- *)
(** ** Memory *)

Lemma store_eq m a v : store m a v a = v.
Proof. unfold store. now rewrite Z.eqb_refl. Qed.

Lemma store_neq m a v x : x <> a -> store m a v x = m x.
Proof. unfold store. intros H. apply Z.eqb_neq in H. now rewrite H. Qed.

Lemma memcpy_in m dst src n x :
  dst <= x < dst + n -> memcpy m dst src n x = m (src + (x - dst)).
Proof.
  unfold memcpy. intros H.
  replace (dst <=? x) with true by (symmetry; apply Z.leb_le; lia).
  replace (x <? dst + n) with true by (symmetry; apply Z.ltb_lt; lia).
  reflexivity.
Qed.

Lemma memcpy_out m dst src n x :
  x < dst \/ dst + n <= x -> memcpy m dst src n x = m x.
Proof.
  unfold memcpy. intros H.
  destruct (dst <=? x) eqn:E1; [|reflexivity].
  destruct (x <? dst + n) eqn:E2; [|reflexivity].
  apply Z.leb_le in E1. apply Z.ltb_lt in E2. lia.
Qed.

Lemma read_bytes_length m a n : length (read_bytes m a n) = n.
Proof. unfold read_bytes. now rewrite length_map, length_seq. Qed.

Lemma read_bytes_nth m a n i d :
  (i < n)%nat -> nth i (read_bytes m a n) d = m (a + Z.of_nat i).
Proof.
  intros H. unfold read_bytes.
  rewrite (nth_indep _ d (m (a + Z.of_nat 0))) by now rewrite length_map, length_seq.
  rewrite (map_nth (fun i => m (a + Z.of_nat i)) (seq 0 n) 0%nat i).
  now rewrite seq_nth.
Qed.

(** A list is what is read at [a] when it has the length and the bytes. *)
Lemma read_bytes_intro m a n l :
  length l = n ->
  (forall i, (i < n)%nat -> nth i l 0 = m (a + Z.of_nat i)) ->
  read_bytes m a n = l.
Proof.
  intros Hl Hn. apply (nth_ext _ _ 0 0).
  - now rewrite read_bytes_length.
  - intros i Hi. rewrite read_bytes_length in Hi.
    rewrite read_bytes_nth by assumption. symmetry. now apply Hn.
Qed.

Lemma read_bytes_ext m m' a n :
  (forall x, a <= x < a + Z.of_nat n -> m' x = m x) ->
  read_bytes m' a n = read_bytes m a n.
Proof.
  intros H. apply read_bytes_intro.
  - apply read_bytes_length.
  - intros i Hi. rewrite read_bytes_nth by assumption. symmetry. apply H. lia.
Qed.

Lemma read_bytes_app m a n1 n2 :
  read_bytes m a (n1 + n2) =
  read_bytes m a n1 ++ read_bytes m (a + Z.of_nat n1) n2.
Proof.
  apply read_bytes_intro.
  - now rewrite length_app, !read_bytes_length.
  - intros i Hi. destruct (Nat.lt_ge_cases i n1) as [H1|H1].
    + rewrite app_nth1 by now rewrite read_bytes_length.
      now apply read_bytes_nth.
    + rewrite app_nth2 by now rewrite read_bytes_length.
      rewrite read_bytes_length, read_bytes_nth by lia.
      f_equal. lia.
Qed.

Lemma read_bytes_cons m a n :
  read_bytes m a (S n) = m a :: read_bytes m (a + 1) n.
Proof.
  change (S n) with (1 + n)%nat. rewrite read_bytes_app.
  unfold read_bytes at 1. simpl. now rewrite Z.add_0_r.
Qed.

(* -------------------------------------------------------------------------- *)
(** ** Length of a length *)

Lemma byte_length_0 : byte_length 0 = 0.
Proof. reflexivity. Qed.

Lemma byte_length_log2 n : 0 < n -> byte_length n = Z.log2 n / 8 + 1.
Proof.
  intros H. unfold byte_length.
  destruct (Z.leb_spec n 0); [lia | reflexivity].
Qed.

Lemma byte_length_nonneg n : 0 <= byte_length n.
Proof.
  unfold byte_length. destruct (Z.leb_spec n 0); [lia|].
  pose proof (Z.log2_nonneg n). zlia.
Qed.

Lemma byte_length_pos n : 0 < n -> 1 <= byte_length n.
Proof.
  intros H. rewrite byte_length_log2 by assumption.
  pose proof (Z.log2_nonneg n). zlia.
Qed.

Lemma byte_length_mono a b : a <= b -> byte_length a <= byte_length b.
Proof.
  intros H. unfold byte_length.
  destruct (Z.leb_spec a 0), (Z.leb_spec b 0); try lia.
  - pose proof (Z.log2_nonneg b). zlia.
  - pose proof (Z.log2_le_mono a b H). zlia.
Qed.

(** [byte_length n] is the [K] with [256^(K-1) <= n < 256^K]. *)
Lemma byte_length_bounds n :
  0 < n -> 256 ^ (byte_length n - 1) <= n < 256 ^ byte_length n.
Proof.
  intros H. rewrite byte_length_log2 by assumption.
  pose proof (Z.log2_nonneg n) as Hl.
  destruct (Z.log2_spec n H) as [Hlo Hhi].
  change 256 with (2 ^ 8). rewrite <- !Z.pow_mul_r by zlia.
  split.
  - eapply Z.le_trans; [|exact Hlo]. apply Z.pow_le_mono_r; zlia.
  - eapply Z.lt_le_trans; [exact Hhi|]. apply Z.pow_le_mono_r; zlia.
Qed.

Lemma byte_length_below n k :
  0 < n -> 0 <= k -> n < 256 ^ k -> byte_length n <= k.
Proof.
  intros Hn Hk Hlt. rewrite byte_length_log2 by assumption.
  assert (Z.log2 n < 8 * k).
  { apply Z.log2_lt_pow2; [assumption|].
    rewrite Z.pow_mul_r by lia. exact Hlt. }
  zlia.
Qed.

Lemma byte_length_above n k :
  0 < n -> 0 <= k -> 256 ^ k <= n -> k + 1 <= byte_length n.
Proof.
  intros Hn Hk Hle. rewrite byte_length_log2 by assumption.
  assert (8 * k <= Z.log2 n).
  { apply Z.log2_le_pow2; [assumption|].
    rewrite Z.pow_mul_r by lia. exact Hle. }
  zlia.
Qed.

Lemma byte_length_int n : 0 <= n < 2 ^ 31 -> 0 <= byte_length n <= 4.
Proof.
  intros H. split; [apply byte_length_nonneg|].
  destruct (Z.eq_dec n 0) as [->|]; [rewrite byte_length_0; lia|].
  apply byte_length_below; lia.
Qed.

Lemma byte_length_cases n :
  0 <= n < 2 ^ 31 ->
  (n = 0 /\ byte_length n = 0) \/
  (0 < n < 256 /\ byte_length n = 1) \/
  (256 <= n < 65536 /\ byte_length n = 2) \/
  (65536 <= n < 16777216 /\ byte_length n = 3) \/
  (16777216 <= n /\ byte_length n = 4).
Proof.
  intros H.
  destruct (Z.eq_dec n 0) as [->|Hn]; [left; now split|right].
  destruct (Z.lt_ge_cases n 256).
  { left. split; [lia|].
    pose proof (byte_length_below n 1). pose proof (byte_length_pos n). lia. }
  right. destruct (Z.lt_ge_cases n 65536).
  { left. split; [lia|].
    pose proof (byte_length_below n 2). pose proof (byte_length_above n 1).
    lia. }
  right. destruct (Z.lt_ge_cases n 16777216).
  { left. split; [lia|].
    pose proof (byte_length_below n 3). pose proof (byte_length_above n 2).
    lia. }
  right. split; [lia|].
  pose proof (byte_length_below n 4). pose proof (byte_length_above n 3). lia.
Qed.

(** On a non-negative [int] the [while] loop of the long form counts
    [byte_length]. *)
Lemma length_of_length_loop_int z :
  0 <= z < 2 ^ 31 ->
  length_of_length_loop int_shift_fuel z 0 = Some (byte_length z).
Proof.
  intros H. unfold int_shift_fuel. cbn [length_of_length_loop].
  rewrite !shiftr_8.
  destruct (byte_length_cases z H) as [[? E]|[[? E]|[[? E]|[[? E]|[? E]]]]];
    rewrite E;
    repeat match goal with
    | |- context [?x =? 0] =>
      destruct (Z.eqb_spec x 0); cbn [negb]; try (exfalso; zlia)
    end; reflexivity.
Qed.

(** On a negative [int] it never stops, whatever the fuel. *)
Lemma length_of_length_loop_negative fuel :
  forall z k, z < 0 -> length_of_length_loop fuel z k = None.
Proof.
  induction fuel as [|fuel IH]; intros z k Hz; [reflexivity|].
  cbn [length_of_length_loop].
  destruct (Z.eqb_spec z 0); [lia|]. cbn [negb].
  apply IH. rewrite shiftr_8. zlia.
Qed.

(** The list header count on an [int]. *)
Lemma list_hdr_count_loop_int z :
  0 <= z < 2 ^ 31 ->
  list_hdr_count_loop int_shift_fuel z 0 = Some (byte_length z).
Proof.
  intros H. unfold int_shift_fuel. cbn [list_hdr_count_loop].
  rewrite !shiftr_8.
  destruct (byte_length_cases z H) as [[? E]|[[? E]|[[? E]|[[? E]|[? E]]]]];
    rewrite E;
    repeat match goal with
    | |- context [?x >? 0] =>
      destruct (Z.gtb_spec x 0); try (exfalso; zlia)
    end; reflexivity.
Qed.

(* -------------------------------------------------------------------------- *)
(** ** Big-endian bytes and the loops that write them *)

Lemma be_bytes_length k : forall n, length (be_bytes k n) = k.
Proof.
  induction k as [|k IH]; intros n; [reflexivity|].
  cbn [be_bytes]. rewrite length_app, IH. simpl. lia.
Qed.

Lemma be_bytes_nth k :
  forall n j, (j < k)%nat ->
  nth j (be_bytes k n) 0 = to_uint8 (n / 256 ^ (Z.of_nat k - 1 - Z.of_nat j)).
Proof.
  induction k as [|k IH]; intros n j Hj; [lia|].
  cbn [be_bytes]. destruct (Nat.eq_dec j k) as [->|Hne].
  - rewrite app_nth2 by (rewrite be_bytes_length; lia).
    rewrite be_bytes_length, Nat.sub_diag. cbn [nth].
    replace (Z.of_nat (S k) - 1 - Z.of_nat k) with 0 by lia.
    now rewrite Z.pow_0_r, Z.div_1_r.
  - rewrite app_nth1 by (rewrite be_bytes_length; lia).
    rewrite IH by lia. f_equal.
    rewrite Z.div_div by lia. f_equal.
    replace (Z.of_nat (S k) - 1 - Z.of_nat j)
      with (1 + (Z.of_nat k - 1 - Z.of_nat j)) by lia.
    rewrite Z.pow_add_r by lia. reflexivity.
Qed.

Lemma be_value_app l b : be_value (l ++ [b]) = be_value l * 256 + b.
Proof. unfold be_value. now rewrite fold_left_app. Qed.

(** [be_bytes] is the big-endian encoding: it has the value it encodes. *)
Lemma be_value_be_bytes k :
  forall n, 0 <= n < 256 ^ Z.of_nat k -> be_value (be_bytes k n) = n.
Proof.
  induction k as [|k IH]; intros n Hn.
  - cbn in *. lia.
  - cbn [be_bytes]. rewrite be_value_app, IH.
    + zlia.
    + rewrite Nat2Z.inj_succ, Z.pow_succ_r in Hn by lia. zlia.
Qed.

(** The length bytes of the long item form. *)
Lemma write_length_loop_at k :
  forall m rlpOut tmp a,
  write_length_loop k m rlpOut (Z.of_nat k) tmp a =
  if (rlpOut + 1 <=? a) && (a <=? rlpOut + Z.of_nat k)
  then to_uint8 (tmp / 256 ^ (Z.of_nat k - (a - rlpOut)))
  else m a.
Proof.
  induction k as [|k IH]; intros m rlpOut tmp a.
  - cbn [write_length_loop].
    destruct (Z.leb_spec (rlpOut + 1) a), (Z.leb_spec a (rlpOut + Z.of_nat 0));
      cbn [andb]; try reflexivity; lia.
  - cbn [write_length_loop].
    destruct (Z.gtb_spec (Z.of_nat (S k)) 0); [|lia].
    replace (Z.of_nat (S k) - 1) with (Z.of_nat k) by lia.
    rewrite IH, shiftr_8.
    destruct (Z.leb_spec (rlpOut + 1) a); cbn [andb].
    + destruct (Z.leb_spec a (rlpOut + Z.of_nat k)),
               (Z.leb_spec a (rlpOut + Z.of_nat (S k))); try lia.
      * f_equal. rewrite Z.div_div by lia. f_equal.
        replace (Z.of_nat (S k) - (a - rlpOut))
          with (1 + (Z.of_nat k - (a - rlpOut))) by lia.
        rewrite Z.pow_add_r by lia. reflexivity.
      * replace a with (rlpOut + Z.of_nat (S k)) by lia.
        rewrite store_eq.
        replace (Z.of_nat (S k) - (rlpOut + Z.of_nat (S k) - rlpOut))
          with 0 by lia.
        now rewrite Z.pow_0_r, Z.div_1_r.
      * apply store_neq. lia.
    + apply store_neq. lia.
Qed.

Lemma write_length_loop_bytes k m rlpOut tmp :
  read_bytes (write_length_loop k m rlpOut (Z.of_nat k) tmp) (rlpOut + 1) k =
  be_bytes k tmp.
Proof.
  apply read_bytes_intro; [apply be_bytes_length|].
  intros i Hi. rewrite be_bytes_nth, write_length_loop_at by assumption.
  destruct (Z.leb_spec (rlpOut + 1) (rlpOut + 1 + Z.of_nat i)); [|lia].
  destruct (Z.leb_spec (rlpOut + 1 + Z.of_nat i) (rlpOut + Z.of_nat k)); [|lia].
  cbn [andb]. do 3 f_equal. lia.
Qed.

Lemma write_length_loop_frame k m rlpOut tmp a :
  a <= rlpOut \/ rlpOut + Z.of_nat k < a ->
  write_length_loop k m rlpOut (Z.of_nat k) tmp a = m a.
Proof.
  intros H. rewrite write_length_loop_at.
  destruct (Z.leb_spec (rlpOut + 1) a), (Z.leb_spec a (rlpOut + Z.of_nat k));
    cbn [andb]; try reflexivity; lia.
Qed.

Lemma write_length_loop_bytes_Z K m rlpOut tmp :
  0 <= K ->
  read_bytes (write_length_loop (Z.to_nat K) m rlpOut K tmp) (rlpOut + 1)
    (Z.to_nat K) = be_bytes (Z.to_nat K) tmp.
Proof.
  intros H. set (k := Z.to_nat K). replace K with (Z.of_nat k) by lia.
  apply write_length_loop_bytes.
Qed.

Lemma write_length_loop_frame_Z K m rlpOut tmp a :
  0 <= K -> a <= rlpOut \/ rlpOut + K < a ->
  write_length_loop (Z.to_nat K) m rlpOut K tmp a = m a.
Proof.
  intros H Ha. set (k := Z.to_nat K).
  replace K with (Z.of_nat k) in * by lia.
  now apply write_length_loop_frame.
Qed.

(** The header bytes of the long list form, written from the low byte up. *)
Lemma list_header_loop_at n :
  forall m rlpOut cnt total i a,
  0 <= i -> Z.of_nat n = cnt - i ->
  list_header_loop n m rlpOut cnt total i a =
  if (rlpOut <=? a) && (a <=? rlpOut + (cnt - 1) - i)
  then to_uint8 (total / 256 ^ (cnt - 1 - (a - rlpOut)))
  else m a.
Proof.
  induction n as [|n IH]; intros m rlpOut cnt total i a Hi Hn.
  - cbn [list_header_loop].
    destruct (Z.leb_spec rlpOut a), (Z.leb_spec a (rlpOut + (cnt - 1) - i));
      cbn [andb]; try reflexivity; lia.
  - cbn [list_header_loop].
    destruct (Z.ltb_spec i cnt); [|lia].
    rewrite IH by lia.
    destruct (Z.leb_spec rlpOut a); cbn [andb].
    + destruct (Z.leb_spec a (rlpOut + (cnt - 1) - (i + 1))),
               (Z.leb_spec a (rlpOut + (cnt - 1) - i)); try lia.
      * replace a with (rlpOut + (cnt - 1 - i)) by lia.
        rewrite store_eq. f_equal.
        rewrite Z.shiftr_div_pow2 by lia.
        rewrite Z.pow_mul_r by lia. do 2 f_equal. lia.
      * apply store_neq. lia.
    + apply store_neq. lia.
Qed.

(** The in-place right shift: everything from [listHdrByteCnt] up to and
    including index [i] takes the byte [listHdrByteCnt] places below it. *)
Lemma shift_loop_at n :
  forall m rlpOut cnt i a,
  0 <= cnt -> Z.of_nat n = i - cnt + 1 ->
  shift_loop n m rlpOut cnt i a =
  if (rlpOut + cnt <=? a) && (a <=? rlpOut + i) then m (a - cnt) else m a.
Proof.
  induction n as [|n IH]; intros m rlpOut cnt i a Hc Hn.
  - cbn [shift_loop].
    destruct (Z.leb_spec (rlpOut + cnt) a), (Z.leb_spec a (rlpOut + i));
      cbn [andb]; try reflexivity; lia.
  - cbn [shift_loop].
    destruct (Z.geb_spec i cnt); [|lia].
    rewrite IH by lia.
    destruct (Z.leb_spec (rlpOut + cnt) a); cbn [andb].
    + destruct (Z.leb_spec a (rlpOut + (i - 1))),
               (Z.leb_spec a (rlpOut + i)); try lia.
      * apply store_neq. lia.
      * replace a with (rlpOut + i) by lia.
        rewrite store_eq. f_equal. lia.
      * apply store_neq. lia.
    + apply store_neq. lia.
Qed.

(* -------------------------------------------------------------------------- *)
(** ** Integer canonicalization *)

Lemma scan_zero_loop_spec n :
  forall m buffBase len0 s,
  Z.of_nat n = len0 - s -> 0 <= s -> len0 < 2 ^ 64 ->
  s < len0 \/ len0 = 0 ->
  let r := scan_zero_loop n m buffBase len0 s (buffBase, len0) in
  let P := strip_leading_zeros (read_bytes m (buffBase + s) n) in
  snd r = Z.of_nat (length P) /\
  read_bytes m (fst r) (length P) = P /\
  buffBase <= fst r /\ fst r + snd r <= buffBase + len0.
Proof.
  induction n as [|n IH]; intros m buffBase len0 s Hn Hs Hlen Hlt.
  - cbn. repeat split; lia.
  - cbn zeta. rewrite read_bytes_cons. cbn [scan_zero_loop strip_leading_zeros].
    destruct (Z.ltb_spec s len0); [|lia].
    destruct (Z.eqb_spec (m (buffBase + s)) 0) as [E|E]; cbn [negb].
    + rewrite to_size_t_small by lia.
      destruct (Z.eqb_spec s (len0 - 1)) as [E1|E1].
      * assert (n = 0%nat) as -> by lia. cbn. repeat split; lia.
      * specialize (IH m buffBase len0 (s + 1)).
        rewrite Z.add_assoc in IH. apply IH; lia.
    + cbn [fst snd]. rewrite to_size_t_small by lia.
      rewrite <- read_bytes_cons. rewrite read_bytes_length.
      repeat split; lia.
Qed.

Lemma canonical_view_spec m e :
  0 <= len e < 2 ^ 64 ->
  let P := canonical_payload m e in
  snd (canonical_view m e) = Z.of_nat (length P) /\
  read_bytes m (fst (canonical_view m e)) (length P) = P /\
  buff e <= fst (canonical_view m e) /\
  fst (canonical_view m e) + snd (canonical_view m e) <= buff e + len e.
Proof.
  intros H. unfold canonical_view, canonical_payload.
  destruct (RLP_TYPE_IS_INTEGER_TYPE (type e)).
  - unfold scan_zero.
    pose proof (scan_zero_loop_spec (Z.to_nat (len e)) m (buff e) (len e) 0) as S.
    rewrite Z.add_0_r in S. apply S; lia.
  - cbn [fst snd]. rewrite read_bytes_length. repeat split; lia.
Qed.

Lemma strip_leading_zeros_length l :
  (length (strip_leading_zeros l) <= length l)%nat.
Proof.
  induction l as [|b l IH]; cbn; [lia|].
  destruct (b =? 0); cbn; lia.
Qed.

Lemma canonical_payload_length m e :
  0 <= len e -> Z.of_nat (length (canonical_payload m e)) <= len e.
Proof.
  intros H. unfold canonical_payload.
  destruct (RLP_TYPE_IS_INTEGER_TYPE (type e)).
  - pose proof (strip_leading_zeros_length
                  (read_bytes m (buff e) (Z.to_nat (len e)))) as S.
    rewrite read_bytes_length in S. lia.
  - rewrite read_bytes_length. lia.
Qed.

(** What the overlap test leaves when it answers no: one span ends at least
    one byte before the other begins. *)
Lemma rlp_memoverlap_false a sza b szb :
  rlp_memoverlap a sza b szb = false -> b + szb < a \/ a + sza < b.
Proof.
  unfold rlp_memoverlap. intros H.
  destruct (Z.eqb_spec a b), (Z.ltb_spec a b), (Z.ltb_spec b a),
           (Z.geb_spec (a + sza) b), (Z.geb_spec (b + szb) a);
    cbn in H; try discriminate; lia.
Qed.

Lemma rlp_memoverlap_true a sza b szb :
  0 <= sza -> 0 <= szb ->
  rlp_memoverlap a sza b szb = true ->
  a = b \/ (a < b <= a + sza) \/ (b < a <= b + szb).
Proof.
  unfold rlp_memoverlap. intros Ha Hb H.
  destruct (Z.eqb_spec a b), (Z.ltb_spec a b), (Z.ltb_spec b a),
           (Z.geb_spec (a + sza) b), (Z.geb_spec (b + szb) a);
    cbn in H; try discriminate; lia.
Qed.

(* -------------------------------------------------------------------------- *)
(** ** One element *)

Lemma hd_read_bytes m p n : (0 < n)%nat -> hd 0 (read_bytes m p n) = m p.
Proof.
  intros H. destruct n as [|n]; [lia|].
  rewrite read_bytes_cons. reflexivity.
Qed.

(** The body of [rlp_encode_element], once the three checks have passed:
    either the long form finds the destination too small and leaves memory
    alone, or the bytes at the destination are the item encoding of the
    canonical payload, and nothing is touched outside the encoding and the
    [item_slack] bytes after it. *)
Lemma element_body_spec o c e m :
  0 <= len e -> len e + 1 <= c -> c < 2 ^ 31 \/ len e + 5 < 2 ^ 31 ->
  rlp_memoverlap o c (buff e) (len e) = false ->
  let P := canonical_payload m e in
  let L := Z.of_nat (length P) in
  let n := Z.of_nat (length (rlp_item P)) in
  (c < n -> element_body o c e m = Some (ERR_RLP_ENOMEM, m)) /\
  (n <= c ->
   exists m', element_body o c e m = Some (n, m') /\
     read_bytes m' o (length (rlp_item P)) = rlp_item P /\
     (forall a, a < o \/ o + n + item_slack L <= a -> m' a = m a)).
Proof.
  intros Hlen Hcap Hc Hov P L n.
  destruct (canonical_view_spec m e) as (Hsnd & Hrd & Hlo & Hhi); [lia|].
  fold P in Hsnd, Hrd. fold L in Hsnd.
  apply rlp_memoverlap_false in Hov.
  unfold element_body.
  destruct (canonical_view m e) as [p Lc]. cbn [fst snd] in *. subst Lc.
  assert (HL : 0 <= L <= len e) by (unfold L; lia).
  unfold n, item_slack, rlp_item. fold L.
  unfold RLP_EXTENDED_LENGTH_THRESHOLD, RLP_OFFSET_ITEM_SHORT,
    RLP_OFFSET_ITEM_LONG.
  destruct (Z.eqb_spec L 0) as [E0|E0].
  { (* empty payload *)
    split; [cbn; lia|]. intros _. eexists. split; [reflexivity|].
    destruct (Z.gtb_spec L 55); [lia|].
    split.
    - cbn. now rewrite Z.add_0_r, store_eq.
    - intros a Ha. apply store_neq. cbn in Ha. lia. }
  assert (Hhd : hd 0 P = m p).
  { rewrite <- Hrd. apply hd_read_bytes. unfold L in *. lia. }
  rewrite Hhd.
  replace ((m p =? 0) || (m p <? 128)) with (m p <? 128)
    by (destruct (Z.eqb_spec (m p) 0), (Z.ltb_spec (m p) 128); cbn; lia).
  destruct ((L =? 1) && (m p <? 128)) eqn:E1.
  { (* a single byte below 0x80 *)
    apply andb_true_iff in E1 as [E1 _]. apply Z.eqb_eq in E1.
    destruct (Z.gtb_spec L 55); [lia|].
    assert (HP : P = [m p]).
    { rewrite <- Hrd. replace (length P) with 1%nat by (unfold L in *; lia).
      rewrite read_bytes_cons. reflexivity. }
    rewrite HP. split; [cbn; lia|]. intros _. eexists.
    split; [reflexivity|]. split.
    - cbn. now rewrite Z.add_0_r, store_eq.
    - intros a Ha. apply store_neq. cbn in Ha. lia. }
  destruct (Z.leb_spec L 55) as [E2|E2].
  { (* short form *)
    destruct (Z.gtb_spec L 55); [lia|].
    cbn [length]. split; [lia|]. intros _. eexists. split.
    - rewrite (to_size_t_small (L + 1)), to_int_small by lia.
      do 2 f_equal. fold L. lia.
    - rewrite to_uint8_small by lia. split.
      + rewrite read_bytes_cons. f_equal.
        * rewrite memcpy_out by lia. apply store_eq.
        * rewrite <- Hrd at 2. apply read_bytes_intro;
            [apply read_bytes_length|].
          intros i Hi. rewrite read_bytes_nth by assumption.
          rewrite memcpy_in by (unfold L; lia).
          rewrite store_neq by lia. f_equal. lia.
      + intros a Ha. rewrite memcpy_out by (fold L in Ha; lia).
        apply store_neq. lia. }
  (* long form *)
  destruct (Z.gtb_spec L 55); [|lia].
  assert (HLi : 0 <= L < 2 ^ 31) by lia.
  rewrite (to_int_small L) by lia.
  rewrite length_of_length_loop_int by assumption.
  pose proof (byte_length_int L HLi) as HK.
  pose proof (byte_length_pos L) as HK1.
  set (K := byte_length L) in *.
  rewrite (to_size_t_small (L + K + 1)) by lia.
  cbn [length]. rewrite length_app, be_bytes_length. fold L.
  destruct (Z.ltb_spec c (L + K + 1)) as [E3|E3].
  { split; [reflexivity|]. intros Hn. exfalso. lia. }
  split; [intros Hn; exfalso; lia|]. intros _.
  rewrite (to_int_small K), (to_int_small (L + K + 1)) by lia.
  rewrite (to_uint8_small (183 + K)) by lia.
  eexists. split; [do 2 f_equal; lia|].
  split.
  - rewrite read_bytes_cons. f_equal.
    + rewrite memcpy_out by lia.
      rewrite write_length_loop_frame_Z by lia. apply store_eq.
    + rewrite read_bytes_app. f_equal.
      * rewrite <- (write_length_loop_bytes_Z K (store m o (183 + K)) o L)
          by lia.
        apply read_bytes_ext. intros x Hx. apply memcpy_out. lia.
      * rewrite <- Hrd at 2. apply read_bytes_intro;
          [apply read_bytes_length|].
        intros i Hi. rewrite read_bytes_nth by assumption.
        rewrite memcpy_in by (unfold L; lia).
        rewrite write_length_loop_frame_Z by lia.
        rewrite store_neq by lia. f_equal. lia.
  - intros a Ha. rewrite memcpy_out by lia.
    rewrite write_length_loop_frame_Z by lia.
    apply store_neq. lia.
Qed.

Lemma type_mem_check_cases e :
  rlp_type_mem_check (len e) (type e) = true ->
  (RLP_TYPE_IS_INTEGER_TYPE (type e) = true /\ 1 <= len e <= 128) \/
  (RLP_TYPE_IS_INTEGER_TYPE (type e) = false /\
   type e = RLP_TYPE_BYTE_ARRAY).
Proof.
  unfold rlp_type_mem_check.
  destruct (type e); cbn; intros H; try discriminate;
    try (right; split; reflexivity);
    left; split; try reflexivity; apply Z.eqb_eq in H; lia.
Qed.

Lemma element_args_ok_iff o c e :
  element_args_ok o c e <->
  (o =? NULL) || (c =? 0) || type_eqb (type e) RLP_TYPE_INVALID ||
  negb (rlp_type_mem_check (len e) (type e)) = false.
Proof.
  unfold element_args_ok. rewrite !orb_false_iff, negb_false_iff.
  rewrite !Z.eqb_neq.
  assert (type_eqb (type e) RLP_TYPE_INVALID = false <->
          type e <> RLP_TYPE_INVALID) as ->.
  { unfold type_eqb. destruct (type e); cbn; split; congruence. }
  tauto.
Qed.

(** With a source of [SIZE_MAX] bytes the body does not return. *)
Lemma element_body_size_max o c e m :
  rlp_type_mem_check (len e) (type e) = true ->
  len e = 2 ^ 64 - 1 -> element_body o c e m = None.
Proof.
  intros Ht Hl. destruct (type_mem_check_cases e Ht) as [[_ H]|[Hi _]]; [lia|].
  unfold element_body, canonical_view. rewrite Hi, Hl.
  reflexivity.
Qed.

(** A call that returns a length has passed the three checks. *)
Lemma rlp_encode_element_success o c e m r m' :
  size_t_range (len e) ->
  rlp_encode_element o c (Some e) m = Some (r, m') -> 0 <= r ->
  element_args_ok o c e /\ len e + 1 <= c /\
  rlp_memoverlap o c (buff e) (len e) = false /\
  element_body o c e m = Some (r, m').
Proof.
  unfold size_t_range. intros Hl H Hr. unfold rlp_encode_element in H.
  destruct ((o =? NULL) || (c =? 0) || type_eqb (type e) RLP_TYPE_INVALID ||
            negb (rlp_type_mem_check (len e) (type e))) eqn:Ea.
  { inversion H. subst r. cbv in Hr. now contradiction Hr. }
  apply element_args_ok_iff in Ea.
  destruct (Z.ltb_spec c (to_size_t (len e + 1))) as [Ec|Ec].
  { inversion H. subst r. cbv in Hr. now contradiction Hr. }
  destruct (rlp_memoverlap o c (buff e) (len e)) eqn:Eo.
  { inversion H. subst r. cbv in Hr. now contradiction Hr. }
  repeat split; try assumption; try apply Ea.
  destruct (Z.eq_dec (len e) (2 ^ 64 - 1)) as [E|E].
  - rewrite element_body_size_max in H by (assumption || apply Ea).
    discriminate.
  - rewrite to_size_t_small in Ec by lia. exact Ec.
Qed.

(** Conversely the checks passed lead into the body. *)
Lemma rlp_encode_element_checked o c e m :
  element_args_ok o c e -> 0 <= len e < 2 ^ 64 - 1 -> len e + 1 <= c ->
  rlp_memoverlap o c (buff e) (len e) = false ->
  rlp_encode_element o c (Some e) m = element_body o c e m.
Proof.
  intros Ha Hl Hc Ho. unfold rlp_encode_element.
  apply element_args_ok_iff in Ha. rewrite Ha, Ho.
  rewrite to_size_t_small by lia.
  destruct (Z.ltb_spec c (len e + 1)); [lia|reflexivity].
Qed.

Lemma rlp_item_length_ge P :
  Z.of_nat (length P) <= Z.of_nat (length (rlp_item P)) /\
  1 <= Z.of_nat (length (rlp_item P)).
Proof.
  unfold rlp_item.
  destruct (Z.eqb_spec (Z.of_nat (length P)) 0); [cbn; lia|].
  destruct ((Z.of_nat (length P) =? 1) && (hd 0 P <? 128)); [lia|].
  destruct (Z.of_nat (length P) <=? 55); cbn [length]; [lia|].
  rewrite length_app. lia.
Qed.

Lemma item_slack_nonneg L : 0 <= item_slack L.
Proof.
  unfold item_slack. destruct (L >? RLP_EXTENDED_LENGTH_THRESHOLD); [|lia].
  pose proof (byte_length_nonneg L). lia.
Qed.

Lemma item_slack_mono a b : a <= b -> item_slack a <= item_slack b.
Proof.
  intros H. unfold item_slack, RLP_EXTENDED_LENGTH_THRESHOLD.
  pose proof (byte_length_mono a b H). pose proof (byte_length_nonneg b).
  destruct (Z.gtb_spec a 55), (Z.gtb_spec b 55); lia.
Qed.

(** A call that returns a length, on a destination below 2 GiB: the length is
    that of the item encoding, the encoding is at the destination, and
    nothing outside the encoding and its slack has changed. *)
Lemma rlp_encode_element_ok o c e m r m' :
  size_t_range (len e) -> c < 2 ^ 31 ->
  rlp_encode_element o c (Some e) m = Some (r, m') -> 0 <= r ->
  let P := canonical_payload m e in
  r = Z.of_nat (length (rlp_item P)) /\ 1 <= r <= c /\
  rlp_memoverlap o c (buff e) (len e) = false /\
  read_bytes m' o (length (rlp_item P)) = rlp_item P /\
  (forall a, a < o \/ o + r + item_slack r <= a -> m' a = m a).
Proof.
  intros Hl Hc H Hr P.
  destruct (rlp_encode_element_success o c e m r m' Hl H Hr)
    as (Ha & Hcap & Ho & Hb).
  destruct (element_body_spec o c e m) as [Hno Hyes];
    try assumption; try (unfold size_t_range in Hl; lia).
  fold P in Hno, Hyes.
  destruct (Z.lt_ge_cases c (Z.of_nat (length (rlp_item P)))) as [E|E].
  { rewrite Hno in Hb by assumption. inversion Hb. subst r.
    cbv in Hr. now contradiction Hr. }
  destruct Hyes as (m'' & Hb' & Hrd & Hfr); [lia|].
  rewrite Hb' in Hb. inversion Hb. subst r m''.
  pose proof (rlp_item_length_ge P) as [HP1 HP2].
  repeat split; try assumption; try lia.
  intros a Ha'. apply Hfr.
  pose proof (item_slack_mono _ _ HP1). lia.
Qed.

(* -------------------------------------------------------------------------- *)
(** ** The list: pre-flight and payload pass *)

Lemma canonical_payload_ext m m' e :
  (forall x, buff e <= x < buff e + len e -> m' x = m x) ->
  canonical_payload m' e = canonical_payload m e.
Proof.
  intros H. unfold canonical_payload.
  rewrite (read_bytes_ext m m') by (intros x Hx; apply H; lia).
  reflexivity.
Qed.

Lemma list_payload_ext m m' es :
  (forall e x, In e es -> buff e <= x < buff e + len e -> m' x = m x) ->
  list_payload m' es = list_payload m es.
Proof.
  intros H. unfold list_payload. f_equal. apply map_ext_in.
  intros e He. f_equal. apply canonical_payload_ext. intros x Hx.
  now apply (H e).
Qed.

Lemma preflight_no_overlap o c es :
  forall sr, preflight o c es sr = None ->
  Forall (fun e => rlp_memoverlap o c (buff e) (len e) = false) es.
Proof.
  induction es as [|e es IH]; intros sr H; [constructor|].
  cbn [preflight] in H.
  destruct (sr <? to_size_t (len e + 1)); [discriminate|].
  destruct (rlp_memoverlap o c (buff e) (len e)) eqn:E; [discriminate|].
  constructor; [assumption|]. eapply IH. eassumption.
Qed.

(** One round of the payload pass that goes on to the next. *)
Lemma encode_each_cons o c e es acc m total m' :
  size_t_range (len e) -> 0 <= acc <= c -> c < 2 ^ 31 ->
  encode_each o c (e :: es) acc m = Some (Completed total m') ->
  exists ret m1,
    rlp_encode_element (o + acc) (c - acc) (Some e) m = Some (ret, m1) /\
    0 <= ret /\
    encode_each o c es (acc + ret) m1 = Some (Completed total m').
Proof.
  intros Hl Ha Hc H. cbn [encode_each] in H.
  rewrite (to_size_t_small (c - acc)) in H by lia.
  destruct (rlp_encode_element (o + acc) (c - acc) (Some e) m)
    as [[ret m1]|] eqn:E; [|discriminate].
  destruct (Z.ltb_spec ret 0); [discriminate|].
  exists ret, m1. split; [reflexivity|]. split; [assumption|].
  destruct (rlp_encode_element_ok (o + acc) (c - acc) e m ret m1 Hl
              ltac:(lia) E ltac:(lia))
    as (_ & Hr & _).
  rewrite to_size_t_small in H by lia. exact H.
Qed.

(** The payload pass writes from [rlpOut + rlpEncodedLen] on, and no further
    than the slack of its total beyond what it counts. *)
Lemma encode_each_frame o c es :
  forall acc m total m',
  Forall (fun e => size_t_range (len e)) es ->
  0 <= acc <= c -> c < 2 ^ 31 ->
  encode_each o c es acc m = Some (Completed total m') ->
  acc + Z.of_nat (length es) <= total <= c /\
  forall a, a < o + acc \/ o + total + item_slack (total - acc) <= a ->
            m' a = m a.
Proof.
  induction es as [|e es IH]; intros acc m total m' Hes Ha Hc H.
  - cbn in H. inversion H. subst. cbn [length]. split; [lia|reflexivity].
  - inversion Hes as [|? ? Hl Hes']. subst.
    destruct (encode_each_cons o c e es acc m total m' Hl Ha Hc H)
      as (ret & m1 & E & Hret & Hrest).
    destruct (rlp_encode_element_ok (o + acc) (c - acc) e m ret m1 Hl
                ltac:(lia) E Hret)
      as (_ & Hr & _ & _ & Hfr1).
    destruct (IH (acc + ret) m1 total m' Hes' ltac:(lia) Hc Hrest)
      as [Ht Hfr].
    cbn [length]. split; [lia|].
    intros a Ha'.
    pose proof (item_slack_mono (total - (acc + ret)) (total - acc)
                  ltac:(lia)).
    pose proof (item_slack_mono ret (total - acc) ltac:(lia)).
    rewrite Hfr by lia. apply Hfr1. lia.
Qed.

(** What the payload pass leaves at the destination: the item encodings of
    the elements in order, provided no source lies in the span written. *)
Lemma encode_each_content o c B es :
  forall acc m total m',
  Forall (fun e => size_t_range (len e)) es ->
  0 <= acc <= c -> c < 2 ^ 31 ->
  (forall e x, In e es -> buff e <= x < buff e + len e ->
               x < o \/ o + B <= x) ->
  encode_each o c es acc m = Some (Completed total m') ->
  total + item_slack (total - acc) <= B ->
  read_bytes m' (o + acc) (Z.to_nat (total - acc)) = list_payload m es.
Proof.
  induction es as [|e es IH]; intros acc m total m' Hes Ha Hc Hsrc H HB.
  - cbn in H. inversion H. subst. now rewrite Z.sub_diag.
  - inversion Hes as [|? ? Hl Hes']. subst.
    destruct (encode_each_cons o c e es acc m total m' Hl Ha Hc H)
      as (ret & m1 & E & Hret & Hrest).
    destruct (rlp_encode_element_ok (o + acc) (c - acc) e m ret m1 Hl
                ltac:(lia) E Hret)
      as (Hn & Hr & _ & Hrd & Hfr1).
    destruct (encode_each_frame o c es (acc + ret) m1 total m' Hes'
                ltac:(lia) Hc Hrest)
      as [Ht Hfr].
    pose proof (item_slack_mono (total - (acc + ret)) (total - acc)
                  ltac:(lia)) as Hs1.
    pose proof (item_slack_mono ret (total - acc) ltac:(lia)) as Hs2.
    assert (Hsame : list_payload m1 es = list_payload m es).
    { apply list_payload_ext. intros e' x He' Hx. apply Hfr1.
      destruct (Hsrc e' x (or_intror He') Hx); lia. }
    specialize (IH (acc + ret) m1 total m' Hes' ltac:(lia) Hc
                  ltac:(intros e' x He'; apply Hsrc; now right)
                  Hrest ltac:(lia)).
    rewrite Hsame in IH.
    unfold list_payload in *. cbn [map concat]. rewrite <- IH, <- Hrd.
    replace (Z.to_nat (total - acc))
      with (length (rlp_item (canonical_payload m e))
            + Z.to_nat (total - (acc + ret)))%nat by lia.
    rewrite read_bytes_app. f_equal.
    + apply read_bytes_ext. intros x Hx. apply Hfr. lia.
    + f_equal. lia.
Qed.

(* -------------------------------------------------------------------------- *)
(** ** The list: header synthesis and insertion *)

Lemma rlp_list_header_length total :
  0 <= total ->
  Z.of_nat (length (rlp_list_header total)) =
  if total <=? 55 then 1 else 1 + byte_length total.
Proof.
  intros H. unfold rlp_list_header. destruct (total <=? 55); [reflexivity|].
  cbn [length]. rewrite be_bytes_length.
  pose proof (byte_length_nonneg total). lia.
Qed.

(** After a payload of at least one byte: the destination is too small for
    header and payload and nothing more is written, or the header is in
    front of the payload.  The shift also writes the byte after the last one. *)
Lemma list_finish_spec o c total m1 :
  1 <= total -> total <= c -> c < 2 ^ 31 ->
  let H := rlp_list_header total in
  let hdr := Z.of_nat (length H) in
  (c < hdr + total -> list_finish o c total m1 = Some (ERR_RLP_ENOMEM, m1)) /\
  (hdr + total <= c ->
   exists m3, list_finish o c total m1 = Some (hdr + total, m3) /\
     read_bytes m3 o (Z.to_nat (hdr + total)) =
       H ++ read_bytes m1 o (Z.to_nat total) /\
     m3 (o + hdr + total) = m1 (o + total) /\
     (forall a, a < o \/ o + hdr + total < a -> m3 a = m1 a)).
Proof.
  intros Ht Hc Hc31 H hdr.
  assert (Hti : 0 <= total < 2 ^ 31) by lia.
  pose proof (byte_length_int total Hti) as HK.
  pose proof (byte_length_pos total ltac:(lia)) as HK1.
  assert (Hhdr : hdr = if total <=? 55 then 1 else 1 + byte_length total).
  { unfold hdr, H. apply rlp_list_header_length. lia. }
  clearbody hdr. unfold list_finish.
  rewrite (to_int_small total), list_hdr_count_loop_int by lia.
  unfold RLP_EXTENDED_LENGTH_THRESHOLD, RLP_OFFSET_LIST_LONG,
    RLP_OFFSET_LIST_SHORT.
  destruct (Z.gtb_spec total 55) as [E|E];
    destruct (Z.leb_spec total 55) as [E'|E']; try lia.
  - (* long header *)
    set (K := byte_length total) in *.
    rewrite (to_uint8_small (K + 1)) by lia.
    rewrite (to_size_t_small (K + 1 + total)) by lia.
    destruct (Z.gtb_spec (K + 1 + total) c) as [E2|E2].
    { split; [reflexivity|]. intros Hn. exfalso. lia. }
    split; [intros Hn; exfalso; lia|]. intros _.
    rewrite (to_int_small (K + 1 + total)) by lia.
    rewrite (to_size_t_small (total + (K + 1))) by lia.
    rewrite (to_int_small (total + (K + 1))) by lia.
    replace (K + 1 - 1) with K by lia.
    rewrite (to_uint8_small (247 + K)) by lia.
    eexists. split; [do 2 f_equal; lia|].
    assert (Hsh : forall a,
      shift_loop (Z.to_nat (K + 1 + total - (K + 1) + 1)) m1 o (K + 1)
        (K + 1 + total) a =
      if (o + (K + 1) <=? a) && (a <=? o + (K + 1 + total))
      then m1 (a - (K + 1)) else m1 a).
    { intros a. apply shift_loop_at; lia. }
    assert (Hhl : forall m a,
      list_header_loop (Z.to_nat (K + 1)) m o (K + 1) total 0 a =
      if (o <=? a) && (a <=? o + (K + 1 - 1) - 0)
      then to_uint8 (total / 256 ^ (K + 1 - 1 - (a - o))) else m a).
    { intros m a. apply list_header_loop_at; lia. }
    split; [|split].
    + subst hdr. replace (Z.to_nat (1 + K + total))
        with (S (Z.to_nat K + Z.to_nat total)) by lia.
      unfold H, rlp_list_header.
      destruct (Z.leb_spec total 55); [lia|]. fold K.
      rewrite read_bytes_cons. cbn [app]. f_equal; [apply store_eq|].
      rewrite read_bytes_app. f_equal.
      * apply read_bytes_intro; [apply be_bytes_length|].
        intros i Hi. rewrite be_bytes_nth by assumption.
        rewrite store_neq by lia. rewrite Hhl.
        destruct (Z.leb_spec o (o + 1 + Z.of_nat i)); [|lia].
        destruct (Z.leb_spec (o + 1 + Z.of_nat i) (o + (K + 1 - 1) - 0));
          [|lia].
        cbn [andb]. do 3 f_equal. lia.
      * apply read_bytes_intro; [apply read_bytes_length|].
        intros i Hi. rewrite read_bytes_nth by assumption.
        rewrite store_neq by lia. rewrite Hhl.
        destruct (Z.leb_spec (o + 1 + Z.of_nat (Z.to_nat K) + Z.of_nat i)
                    (o + (K + 1 - 1) - 0)); [lia|].
        rewrite andb_false_r, Hsh.
        destruct (Z.leb_spec (o + (K + 1))
                    (o + 1 + Z.of_nat (Z.to_nat K) + Z.of_nat i)); [|lia].
        destruct (Z.leb_spec (o + 1 + Z.of_nat (Z.to_nat K) + Z.of_nat i)
                    (o + (K + 1 + total))); [|lia].
        cbn [andb]. f_equal. lia.
    + subst hdr. rewrite store_neq by lia. rewrite Hhl.
      destruct (Z.leb_spec (o + (1 + K) + total) (o + (K + 1 - 1) - 0)); [lia|].
      rewrite andb_false_r, Hsh.
      destruct (Z.leb_spec (o + (K + 1)) (o + (1 + K) + total)); [|lia].
      destruct (Z.leb_spec (o + (1 + K) + total) (o + (K + 1 + total))); [|lia].
      cbn [andb]. f_equal. lia.
    + intros a Ha. subst hdr. rewrite store_neq by lia. rewrite Hhl, Hsh.
      destruct (Z.leb_spec o a), (Z.leb_spec a (o + (K + 1 - 1) - 0)),
        (Z.leb_spec (o + (K + 1)) a), (Z.leb_spec a (o + (K + 1 + total)));
        cbn [andb]; try reflexivity; lia.
  - (* short header *)
    destruct (byte_length_cases total Hti)
      as [[? EK]|[[? EK]|[[? EK]|[[? EK]|[? EK]]]]]; try lia.
    rewrite EK.
    rewrite (to_size_t_small (1 + total)) by lia.
    destruct (Z.gtb_spec (1 + total) c) as [E2|E2].
    { split; [reflexivity|]. intros Hn. exfalso. lia. }
    split; [intros Hn; exfalso; lia|]. intros _.
    rewrite (to_int_small (1 + total)) by lia.
    rewrite (to_size_t_small (total + 1)) by lia.
    rewrite (to_int_small (total + 1)) by lia.
    rewrite (to_uint8_small (192 + total)) by lia.
    eexists. split; [do 2 f_equal; lia|].
    assert (Hsh : forall a,
      shift_loop (Z.to_nat (1 + total - 1 + 1)) m1 o 1 (1 + total) a =
      if (o + 1 <=? a) && (a <=? o + (1 + total))
      then m1 (a - 1) else m1 a).
    { intros a. apply shift_loop_at; lia. }
    split; [|split].
    + subst hdr. replace (Z.to_nat (1 + total)) with (S (Z.to_nat total))
        by lia.
      unfold H, rlp_list_header.
      destruct (Z.leb_spec total 55); [|lia].
      rewrite read_bytes_cons. cbn [app]. f_equal; [apply store_eq|].
      apply read_bytes_intro; [apply read_bytes_length|].
      intros i Hi. rewrite read_bytes_nth by assumption.
      rewrite store_neq by lia. rewrite Hsh.
      destruct (Z.leb_spec (o + 1) (o + 1 + Z.of_nat i)); [|lia].
      destruct (Z.leb_spec (o + 1 + Z.of_nat i) (o + (1 + total))); [|lia].
      cbn [andb]. f_equal. lia.
    + subst hdr. rewrite store_neq by lia. rewrite Hsh.
      destruct (Z.leb_spec (o + 1) (o + 1 + total)); [|lia].
      destruct (Z.leb_spec (o + 1 + total) (o + (1 + total))); [|lia].
      cbn [andb]. f_equal. lia.
    + intros a Ha. subst hdr. rewrite store_neq by lia. rewrite Hsh.
      destruct (Z.leb_spec (o + 1) a), (Z.leb_spec a (o + (1 + total)));
        cbn [andb]; try reflexivity; lia.
Qed.

Lemma preflight_error o c es :
  forall sr err, preflight o c es sr = Some err ->
  err = ERR_RLP_ENOMEM \/ err = ERR_RLP_EILLEGALMEM.
Proof.
  induction es as [|e es IH]; intros sr err H; [discriminate|].
  cbn [preflight] in H.
  destruct (sr <? to_size_t (len e + 1)); [inversion H; now left|].
  destruct (rlp_memoverlap o c (buff e) (len e));
    [inversion H; now right|].
  eapply IH. eassumption.
Qed.

Lemma encode_each_returned o c es :
  forall acc m ret m',
  encode_each o c es acc m = Some (Returned ret m') -> ret < 0.
Proof.
  induction es as [|e es IH]; intros acc m ret m' H; [discriminate|].
  cbn [encode_each] in H.
  destruct (rlp_encode_element (o + acc) (to_size_t (c - acc)) (Some e) m)
    as [[r m1]|]; [|discriminate].
  destruct (Z.ltb_spec r 0).
  - inversion H. now subst.
  - eapply IH. eassumption.
Qed.

(** A list encode that returns a length has run all three stages. *)
Lemma rlp_encode_list_success o c es m n m' :
  rlp_encode_list o c (Some es) m = Some (n, m') -> 0 <= n ->
  o <> NULL /\ c <> 0 /\ preflight o c es c = None /\
  exists total m1,
    encode_each o c es 0 m = Some (Completed total m1) /\
    list_finish o c total m1 = Some (n, m').
Proof.
  unfold rlp_encode_list. intros H Hn.
  destruct (Z.eqb_spec o NULL); cbn [orb] in H.
  { inversion H. subst n. cbv in Hn. now contradiction Hn. }
  destruct (Z.eqb_spec c 0); cbn [orb] in H.
  { inversion H. subst n. cbv in Hn. now contradiction Hn. }
  destruct (preflight o c es c) as [err|] eqn:Ep.
  { inversion H. subst n.
    destruct (preflight_error _ _ _ _ _ Ep); subst err; cbv in Hn;
      now contradiction Hn. }
  repeat split; try assumption.
  destruct (encode_each o c es 0 m) as [[ret mr|total m1]|] eqn:Ee;
    [|eauto|discriminate].
  inversion H. subst. apply encode_each_returned in Ee. lia.
Qed.

(* -------------------------------------------------------------------------- *)
(** ** The element encoding *)

Lemma rlp_item_cases P :
  let L := Z.of_nat (length P) in
  (L = 0 -> rlp_item P = [0x80]) /\
  (L = 1 -> hd 0 P < 0x80 -> rlp_item P = [hd 0 P]) /\
  (1 <= L <= 55 -> ~ (L = 1 /\ hd 0 P < 0x80) ->
   rlp_item P = (0x80 + L) :: P) /\
  (55 < L ->
   rlp_item P =
   (0xB7 + byte_length L) :: be_bytes (Z.to_nat (byte_length L)) L ++ P).
Proof.
  intros L. unfold rlp_item. fold L.
  destruct (Z.eqb_spec L 0), (Z.eqb_spec L 1), (Z.ltb_spec (hd 0 P) 128),
    (Z.leb_spec L 55); cbn [andb];
    repeat split; intros; try lia; try reflexivity.
  destruct P as [|b [|b' P]]; cbn [length] in *; try lia. reflexivity.
Qed.

(** An element whose canonical payload is short is short itself. *)
Lemma short_payload_len o c e m :
  element_args_ok o c e -> 0 <= len e ->
  Z.of_nat (length (canonical_payload m e)) <= 55 -> len e <= 128.
Proof.
  intros (_ & _ & _ & Ht) Hl HL.
  destruct (type_mem_check_cases e Ht) as [[_ H]|[Hi _]]; [lia|].
  unfold canonical_payload in HL. rewrite Hi, read_bytes_length in HL. lia.
Qed.

(** C6.  The short forms of [rlp_encode_element], for an element that passes
    the argument checks, whose source does not overlap the destination, and
    whose destination has the capacity the function asks for, the declared
    length plus one.  With [L] the length of the canonical payload: [L = 0]
    gives the single byte 0x80 and returns 1; [L = 1] with a byte below 0x80
    gives that byte alone and returns 1, whatever the type of the element;
    any other [L] from 1 to 55 gives the byte [0x80 + L] followed by the [L]
    payload bytes and returns [L + 1].  Nothing else is written. *)
Theorem rlp_encode_element_short_forms o c e m :
  element_args_ok o c e -> 0 <= len e -> len e + 1 <= c ->
  rlp_memoverlap o c (buff e) (len e) = false ->
  let P := canonical_payload m e in
  let L := Z.of_nat (length P) in
  (L = 0 ->
   exists m', rlp_encode_element o c (Some e) m = Some (1, m') /\
     m' o = 0x80 /\ forall a, a <> o -> m' a = m a) /\
  (L = 1 -> hd 0 P < 0x80 ->
   exists m', rlp_encode_element o c (Some e) m = Some (1, m') /\
     m' o = hd 0 P /\ forall a, a <> o -> m' a = m a) /\
  (1 <= L <= 55 -> ~ (L = 1 /\ hd 0 P < 0x80) ->
   exists m', rlp_encode_element o c (Some e) m = Some (L + 1, m') /\
     m' o = 0x80 + L /\ read_bytes m' (o + 1) (length P) = P /\
     forall a, a < o \/ o + L + 1 <= a -> m' a = m a).
Proof.
  intros Ha Hl Hc Ho P L.
  assert (Hshort : L <= 55 ->
    exists m', rlp_encode_element o c (Some e) m =
                 Some (Z.of_nat (length (rlp_item P)), m') /\
      read_bytes m' o (length (rlp_item P)) = rlp_item P /\
      forall a, a < o \/ o + Z.of_nat (length (rlp_item P)) <= a ->
                m' a = m a).
  { intros HL.
    pose proof (short_payload_len o c e m Ha Hl HL) as H128.
    pose proof (canonical_payload_length m e Hl) as HLl. fold P in HLl.
    rewrite rlp_encode_element_checked by (assumption || lia).
    destruct (element_body_spec o c e m Hl Hc ltac:(lia) Ho) as [_ Hyes].
    fold P in Hyes. fold L in Hyes.
    destruct Hyes as (m' & Hb & Hrd & Hfr).
    - destruct (rlp_item_cases P) as (C0 & C1 & C2 & _). fold L in C0, C1, C2.
      destruct (Z.eq_dec L 0) as [E0|E0]; [rewrite C0 by assumption; cbn; lia|].
      destruct (Z.eq_dec L 1) as [E1|E1].
      + destruct (Z.lt_ge_cases (hd 0 P) 128).
        * rewrite C1 by assumption. cbn. lia.
        * rewrite C2 by lia. cbn [length]. lia.
      + rewrite C2 by lia. cbn [length]. lia.
    - exists m'. repeat split; try assumption.
      intros a Ha'. apply Hfr. unfold item_slack, RLP_EXTENDED_LENGTH_THRESHOLD.
      destruct (Z.gtb_spec L 55); lia. }
  destruct (rlp_item_cases P) as (C0 & C1 & C2 & _). fold L in C0, C1, C2.
  split; [|split].
  - intros E. destruct (Hshort ltac:(lia)) as (m' & Hr & Hrd & Hfr).
    rewrite C0 in * by assumption. exists m'. cbn [length] in *.
    split; [exact Hr|]. split.
    + rewrite read_bytes_cons in Hrd. now injection Hrd.
    + intros a Hne. apply Hfr. lia.
  - intros E Hb. destruct (Hshort ltac:(lia)) as (m' & Hr & Hrd & Hfr).
    rewrite C1 in * by assumption. exists m'. cbn [length] in *.
    split; [exact Hr|]. split.
    + rewrite read_bytes_cons in Hrd. now injection Hrd.
    + intros a Hne. apply Hfr. lia.
  - intros E Hnb. destruct (Hshort ltac:(lia)) as (m' & Hr & Hrd & Hfr).
    rewrite C2 in * by assumption. exists m'. cbn [length] in *.
    fold L in Hr, Hfr.
    split; [rewrite Hr; f_equal; f_equal; lia|].
    rewrite read_bytes_cons in Hrd. injection Hrd as H0 Hrest.
    repeat split; try assumption.
    intros a Ha'. apply Hfr. lia.
Qed.

Lemma rlp_encode_element_short_forms_witness :
  exists m', rlp_encode_element 1000 10 (Some gas_price) tx_mem =
               Some (3 + 1, m') /\
    m' 1000 = 0x80 + 3 /\ read_bytes m' (1000 + 1) 3 = [15; 66; 64] /\
    forall a, a < 1000 \/ 1000 + 3 + 1 <= a -> m' a = tx_mem a.
Proof.
  refine (proj2 (proj2 (rlp_encode_element_short_forms 1000 10 gas_price tx_mem
            _ _ _ _)) _ _).
  - repeat split; cbv; congruence.
  - cbv; congruence.
  - cbv; congruence.
  - reflexivity.
  - cbv; split; congruence.
  - cbv. intros [H _]. discriminate H.
Defined.

(** Every way a call of [rlp_encode_element] on a destination below 2 GiB
    ends, in the order of the source. *)
Lemma rlp_encode_element_cases o c e m :
  0 <= len e < 2 ^ 64 - 1 -> c < 2 ^ 31 ->
  let P := canonical_payload m e in
  let L := Z.of_nat (length P) in
  let n := Z.of_nat (length (rlp_item P)) in
  let res := rlp_encode_element o c (Some e) m in
  (~ element_args_ok o c e /\ res = Some (ERR_RLP_EBADARG, m)) \/
  (element_args_ok o c e /\ c < len e + 1 /\
   res = Some (ERR_RLP_ENOMEM, m)) \/
  (element_args_ok o c e /\ len e + 1 <= c /\
   rlp_memoverlap o c (buff e) (len e) = true /\
   res = Some (ERR_RLP_EILLEGALMEM, m)) \/
  (element_args_ok o c e /\ len e + 1 <= c /\
   rlp_memoverlap o c (buff e) (len e) = false /\
   55 < L /\ c < L + byte_length L + 1 /\
   res = Some (ERR_RLP_ENOMEM, m)) \/
  (element_args_ok o c e /\ len e + 1 <= c /\
   rlp_memoverlap o c (buff e) (len e) = false /\
   1 <= n <= c /\
   exists m', res = Some (n, m') /\
     read_bytes m' o (length (rlp_item P)) = rlp_item P /\
     forall a, a < o \/ o + n + item_slack L <= a -> m' a = m a).
Proof.
  intros Hl Hc P L n res. unfold res, rlp_encode_element.
  destruct ((o =? NULL) || (c =? 0) || type_eqb (type e) RLP_TYPE_INVALID ||
            negb (rlp_type_mem_check (len e) (type e))) eqn:Ea.
  { left. split; [|reflexivity]. intros H. apply element_args_ok_iff in H.
    congruence. }
  right. apply element_args_ok_iff in Ea.
  rewrite to_size_t_small by lia.
  destruct (Z.ltb_spec c (len e + 1)) as [Ec|Ec];
    [left; split; [assumption|split; [assumption|reflexivity]]|].
  right.
  destruct (rlp_memoverlap o c (buff e) (len e)) eqn:Eo;
    [left; split; [assumption|split; [assumption|split; reflexivity]]|].
  right.
  destruct (element_body_spec o c e m ltac:(lia) Ec ltac:(lia) Eo)
    as [Hno Hyes].
  fold P in Hno, Hyes. fold L in Hyes. fold n in Hno, Hyes.
  pose proof (rlp_item_length_ge P) as [_ Hn1]. fold n in Hn1.
  pose proof (canonical_payload_length m e ltac:(lia)) as HLl.
  fold P in HLl. fold L in HLl.
  destruct (Z.lt_ge_cases c n) as [E|E].
  - left. split; [assumption|]. split; [assumption|].
    split; [reflexivity|]. split; [|split; [|now apply Hno]].
    + destruct (Z.lt_ge_cases 55 L) as [|HL]; [assumption|exfalso].
      destruct (rlp_item_cases P) as (C0 & C1 & C2 & _).
      fold L in C0, C1, C2. unfold n in E.
      destruct (Z.eq_dec L 0) as [E0|E0];
        [rewrite C0 in E by assumption; cbn in E; lia|].
      destruct (Z.eq_dec L 1) as [E1|E1];
        [destruct (Z.lt_ge_cases (hd 0 P) 128);
         [rewrite C1 in E by assumption|rewrite C2 in E by lia];
         cbn [length] in E; lia|].
      rewrite C2 in E by lia. cbn [length] in E. lia.
    + destruct (Z.lt_ge_cases 55 L) as [HL|HL].
      * destruct (rlp_item_cases P) as (_ & _ & _ & C3). fold L in C3.
        unfold n in E. rewrite C3 in E by assumption.
        cbn [length] in E. rewrite length_app, be_bytes_length in E.
        pose proof (byte_length_nonneg L). fold L in E. lia.
      * pose proof (rlp_item_length_ge P) as [_ ?].
        destruct (rlp_item_cases P) as (C0 & C1 & C2 & _).
        fold L in C0, C1, C2. unfold n in E.
        destruct (Z.eq_dec L 0) as [E0|E0];
          [rewrite C0 in E by assumption; cbn in E; lia|].
        destruct (Z.eq_dec L 1) as [E1|E1];
          [destruct (Z.lt_ge_cases (hd 0 P) 128);
           [rewrite C1 in E by assumption|rewrite C2 in E by lia];
           cbn [length] in E; lia|].
        rewrite C2 in E by lia. cbn [length] in E. lia.
  - right. split; [assumption|]. split; [assumption|].
    split; [reflexivity|]. split; [lia|]. now apply Hyes.
Qed.

(** C7, as the code has it.  On a destination below 2 GiB and for an
    element whose declared length is below [SIZE_MAX] (at [SIZE_MAX] the
    declared length plus one wraps to 0 and the first test lets every
    destination through),
    [rlp_encode_element] returns [ERR_RLP_ENOMEM] exactly when the argument
    checks pass and either the destination is smaller than the declared
    length of the element plus one (the raw source length, before integer
    trimming and whatever the form of the header), or the source does not
    overlap, the canonical payload is longer than 55 bytes and the
    destination is smaller than payload, length bytes and header byte
    together.  Both tests come before the first store, so memory is unchanged
    on this error.  In particular a destination no larger than the declared
    length is refused. *)
Theorem rlp_encode_element_enomem o c e m :
  0 <= len e < 2 ^ 64 - 1 -> c < 2 ^ 31 ->
  let L := Z.of_nat (length (canonical_payload m e)) in
  ((exists m', rlp_encode_element o c (Some e) m =
                 Some (ERR_RLP_ENOMEM, m')) <->
   element_args_ok o c e /\
   (c < len e + 1 \/
    (rlp_memoverlap o c (buff e) (len e) = false /\
     55 < L /\ c < L + byte_length L + 1))) /\
  (forall m', rlp_encode_element o c (Some e) m =
                Some (ERR_RLP_ENOMEM, m') -> m' = m) /\
  (element_args_ok o c e -> c <= len e ->
   rlp_encode_element o c (Some e) m = Some (ERR_RLP_ENOMEM, m)).
Proof.
  intros Hl Hc L.
  pose proof (rlp_encode_element_cases o c e m Hl Hc) as Hcases.
  cbv zeta in Hcases. fold L in Hcases.
  assert (Hcode : forall (z : Z) (m1 m2 : mem),
            Some (z, m1) = Some (ERR_RLP_ENOMEM, m2) -> z = -125 /\ m2 = m1).
  { intros z m1 m2 H. injection H as H1 H2. now subst. }
  destruct Hcases as [(Ha & R)|[(Ha & Hcap & R)|[(Ha & Hcap & Ho & R)|
        [(Ha & Hcap & Ho & HL & Hn & R)|
         (Ha & Hcap & Ho & Hn & m1 & R & _)]]]]; rewrite R.
  - (* the argument checks fail *)
    split; [split|split].
    + intros [m' H]. apply Hcode in H as [H _]. discriminate H.
    + intros [Ha' _]. contradiction.
    + intros m' H. apply Hcode in H as [H _]. discriminate H.
    + intros Ha'. contradiction.
  - (* below the declared length plus one *)
    split; [split|split].
    + intros _. split; [assumption|now left].
    + intros _. now exists m.
    + intros m' H. now apply Hcode in H.
    + reflexivity.
  - (* overlap *)
    split; [split|split].
    + intros [m' H]. apply Hcode in H as [H _]. discriminate H.
    + intros [_ [H|(H & _)]]; [lia|congruence].
    + intros m' H. apply Hcode in H as [H _]. discriminate H.
    + intros _ H. lia.
  - (* the long form does not fit *)
    split; [split|split].
    + intros _. split; [assumption|]. right. now repeat split.
    + intros _. now exists m.
    + intros m' H. now apply Hcode in H.
    + reflexivity.
  - (* a length is returned *)
    split; [split|split].
    + intros [m' H]. apply Hcode in H as [H _]. lia.
    + intros [_ [H|(_ & HL & H)]]; [lia|exfalso].
      destruct (rlp_item_cases (canonical_payload m e)) as (_ & _ & _ & C3).
      fold L in C3. rewrite C3 in Hn by assumption.
      cbn [length] in Hn. rewrite length_app, be_bytes_length in Hn.
      pose proof (byte_length_nonneg L). fold L in Hn. lia.
    + intros m' H. apply Hcode in H as [H _]. lia.
    + intros _ H. lia.
Qed.

(** C7 as stated fails on the one-byte string [05] with a destination of one
    byte: the encoding is the byte itself, which fits, and the function
    returns [ERR_RLP_ENOMEM]. *)
Lemma rlp_encode_element_enomem_counterexample :
  rlp_encode_element 1000 1 (Some five) five_mem =
    Some (ERR_RLP_ENOMEM, five_mem) /\
  rlp_item (canonical_payload five_mem five) = [5] /\
  ~ 1 < Z.of_nat (length (rlp_item (canonical_payload five_mem five))).
Proof.
  split; [reflexivity|]. split; [reflexivity|]. cbv. discriminate.
Qed.

Lemma rlp_encode_element_enomem_witness :
  rlp_encode_element 1000 4 (Some gas_price) tx_mem =
    Some (ERR_RLP_ENOMEM, tx_mem).
Proof.
  refine (proj2 (proj2 (rlp_encode_element_enomem 1000 4 gas_price tx_mem
            _ _)) _ _).
  - cbv. split; congruence.
  - reflexivity.
  - repeat split; cbv; congruence.
  - cbv. congruence.
Defined.

(* -------------------------------------------------------------------------- *)
(** ** The overlap test *)

(** Spans that intersect are always reported. *)
Lemma rlp_memoverlap_complete a sza b szb :
  regions_intersect a sza b szb -> rlp_memoverlap a sza b szb = true.
Proof.
  intros (x & Ha & Hb). unfold rlp_memoverlap.
  destruct (Z.eqb_spec a b), (Z.ltb_spec a b), (Z.ltb_spec b a),
           (Z.geb_spec (a + sza) b), (Z.geb_spec (b + szb) a);
    cbn; try reflexivity; lia.
Qed.

(** C8, where the code parts from it.  A source that only touches the
    destination (it begins at the byte after the last byte of the
    destination, or ends at the byte before its first byte) and an empty
    source at the first address of the destination share no address with the
    destination, yet [rlp_encode_element] answers [ERR_RLP_EILLEGALMEM]
    (writing nothing): [rlp_memoverlap] compares with [>=] where the spans
    overlap only from [>] on, and takes equal start addresses for an overlap
    whatever the sizes. *)
Theorem rlp_encode_element_adjacent_reported o c e m :
  element_args_ok o c e -> 0 <= len e < 2 ^ 64 - 1 -> len e + 1 <= c ->
  buff e = o + c \/ buff e + len e = o \/ (buff e = o /\ len e = 0) ->
  ~ regions_intersect o c (buff e) (len e) /\
  rlp_encode_element o c (Some e) m = Some (ERR_RLP_EILLEGALMEM, m).
Proof.
  intros Ha Hl Hc Hadj. split.
  - intros (x & Hx1 & Hx2). lia.
  - unfold rlp_encode_element. apply element_args_ok_iff in Ha. rewrite Ha.
    rewrite to_size_t_small by lia.
    destruct (Z.ltb_spec c (len e + 1)); [lia|].
    replace (rlp_memoverlap o c (buff e) (len e)) with true; [reflexivity|].
    symmetry. unfold rlp_memoverlap.
    destruct (Z.eqb_spec o (buff e)), (Z.ltb_spec o (buff e)),
             (Z.ltb_spec (buff e) o), (Z.geb_spec (o + c) (buff e)),
             (Z.geb_spec (buff e + len e) o);
      cbn; try reflexivity; lia.
Qed.

Lemma rlp_encode_element_adjacent_reported_witness :
  ~ regions_intersect 1996 4 (buff five) (len five) /\
  rlp_encode_element 1996 4 (Some five) five_mem =
    Some (ERR_RLP_EILLEGALMEM, five_mem).
Proof.
  apply (rlp_encode_element_adjacent_reported 1996 4 five five_mem).
  - repeat split; cbv; congruence.
  - cbv. split; congruence.
  - cbv. congruence.
  - left. reflexivity.
Defined.

(* -------------------------------------------------------------------------- *)
(** ** The empty list *)

(** C2, where the code parts from it.  With no element the header byte count
    comes out as 0 (the loop counts the bytes of the length 0, and the one
    byte of the tag is only added above 55), so [rlp_encode_list] stores
    0xC0 in the first byte of the destination and returns 0, not 1. *)
Theorem rlp_encode_list_empty o c m :
  o <> NULL -> 0 < c ->
  exists m', rlp_encode_list o c (Some []) m = Some (0, m') /\
    m' o = 0xC0 /\ forall a, a <> o -> m' a = m a.
Proof.
  intros Ho Hc. unfold rlp_encode_list.
  destruct (Z.eqb_spec o NULL); [contradiction|].
  destruct (Z.eqb_spec c 0); [lia|].
  cbn [orb preflight encode_each]. unfold list_finish.
  change (list_hdr_count_loop int_shift_fuel (to_int 0) 0) with (Some 0).
  cbv iota beta.
  change (0 >? RLP_EXTENDED_LENGTH_THRESHOLD) with false. cbv iota zeta.
  change (to_size_t (0 + 0)) with 0.
  destruct (Z.gtb_spec 0 c); [lia|].
  eexists. split; [reflexivity|]. split.
  - apply store_eq.
  - intros a Ha. rewrite store_neq by assumption.
    change (Z.to_nat (to_int 0 - 0 + 1)) with 1%nat.
    change (to_int 0) with 0. cbn [shift_loop].
    change (0 >=? 0) with true. cbv iota.
    apply store_neq. lia.
Qed.

Lemma rlp_encode_list_empty_witness :
  exists m', rlp_encode_list 1000 100 (Some []) tx_mem = Some (0, m') /\
    m' 1000 = 0xC0 /\ forall a, a <> 1000 -> m' a = tx_mem a.
Proof.
  apply (rlp_encode_list_empty 1000 100 tx_mem).
  - cbv. congruence.
  - lia.
Defined.

(* -------------------------------------------------------------------------- *)
(** ** The long item form *)

(** The long form, computed: header byte, length bytes, and a copy of
    [L + K + 1] bytes from the payload source. *)
Lemma element_body_long o c e m p L :
  canonical_view m e = (p, L) -> 55 < L ->
  L + byte_length L + 1 <= c -> c < 2 ^ 31 ->
  let K := byte_length L in
  element_body o c e m =
  Some (L + K + 1,
        memcpy
          (write_length_loop (Z.to_nat K) (store m o (0xB7 + K)) o K L)
          (o + 1 + K) p (L + K + 1)).
Proof.
  intros Hv HL Hc Hc31 K. unfold element_body. rewrite Hv.
  unfold RLP_EXTENDED_LENGTH_THRESHOLD, RLP_OFFSET_ITEM_LONG.
  pose proof (byte_length_nonneg L) as HK0. fold K in HK0, Hc.
  assert (HLi : 0 <= L < 2 ^ 31) by lia.
  pose proof (byte_length_int L HLi) as HK. fold K in HK.
  destruct (Z.eqb_spec L 0); [lia|].
  destruct (Z.eqb_spec L 1); [lia|]. cbn [andb].
  destruct (Z.leb_spec L 55); [lia|].
  rewrite (to_int_small L), length_of_length_loop_int by lia. fold K.
  rewrite (to_size_t_small (L + K + 1)) by lia.
  destruct (Z.ltb_spec c (L + K + 1)); [lia|].
  rewrite (to_int_small K), (to_int_small (L + K + 1)) by lia.
  rewrite (to_uint8_small (183 + K)) by lia.
  reflexivity.
Qed.

(** C1, where the code parts from it.  For a byte string longer than 55 bytes
    in a destination large enough, [rlp_encode_element] returns [1 + K + L] as
    the claim says, but its [memcpy] is called with [L + K + 1] for a length:
    the [K + 1] bytes that follow the payload in memory are read and written
    to the destination behind the encoding as well.  (Read here are the
    bytes of the source that the header bytes just written do not cover.) *)
Theorem rlp_encode_element_long_copy o c e m :
  type e = RLP_TYPE_BYTE_ARRAY -> o <> NULL -> 55 < len e -> c < 2 ^ 31 ->
  len e + byte_length (len e) + 1 <= c ->
  rlp_memoverlap o c (buff e) (len e) = false ->
  let K := byte_length (len e) in
  exists m',
    rlp_encode_element o c (Some e) m = Some (1 + K + len e, m') /\
    forall i, 0 <= i < len e + K + 1 ->
      buff e + i < o \/ o + K < buff e + i ->
      m' (o + 1 + K + i) = m (buff e + i).
Proof.
  intros Ht Ho HL Hc31 Hc Hov K.
  pose proof (byte_length_nonneg (len e)) as HK. fold K in HK, Hc.
  assert (Ha : element_args_ok o c e).
  { unfold element_args_ok, rlp_type_mem_check. rewrite Ht. cbn.
    repeat split; try assumption; try congruence. lia. }
  rewrite rlp_encode_element_checked by (assumption || lia).
  rewrite (element_body_long o c e m (buff e) (len e)); try assumption.
  - fold K. eexists. split; [do 2 f_equal; lia|].
    intros i Hi Hout. rewrite memcpy_in by lia.
    rewrite write_length_loop_frame_Z by lia.
    rewrite store_neq by lia. f_equal. lia.
  - unfold canonical_view. now rewrite Ht.
Qed.

Lemma rlp_encode_element_long_copy_witness :
  exists m',
    rlp_encode_element 1000 100 (Some long_string) long_mem =
      Some (1 + byte_length (len long_string) + len long_string, m') /\
    forall i, 0 <= i < len long_string + byte_length (len long_string) + 1 ->
      buff long_string + i < 1000 \/
      1000 + byte_length (len long_string) < buff long_string + i ->
      m' (1000 + 1 + byte_length (len long_string) + i) =
      long_mem (buff long_string + i).
Proof.
  apply (rlp_encode_element_long_copy 1000 100 long_string long_mem).
  - reflexivity.
  - cbv. congruence.
  - cbv. congruence.
  - lia.
  - cbv. congruence.
  - reflexivity.
Defined.

(** The byte at index 58, after the 58 bytes of the encoding, has become the
    byte that follows the 56-byte payload in memory. *)
Example long_string_overcopy :
  option_map fst (rlp_encode_element 1000 100 (Some long_string) long_mem)
    = Some 58 /\
  long_mem 1058 = 170 /\
  long_mem 2056 = 34 /\
  mem_after (rlp_encode_element 1000 100 (Some long_string) long_mem)
    long_mem 1058 = 34.
Proof. vm_compute. repeat split; reflexivity. Qed.

(** C3, where the code parts from it.  The scan for the first non-zero byte
    only reads ([canonical_view_spec]), but the copy of the long form reaches
    the source itself: a 512-bit integer with no leading zero, encoded into a
    destination of exactly the 66 bytes it needs, with one free byte between
    the end of the destination and the integer.  The call returns 66, and the
    first byte of the integer has changed from 0x11 to 0x22: [memcpy] copies
    66 bytes to the indices 2 to 67 of a destination of 66, and index 67 is
    where the integer begins.  The byte stored there is read 65 bytes into
    the source, where nothing is written, so the order in which [memcpy]
    copies does not matter. *)
Theorem rlp_encode_element_source_overwritten :
  rlp_memoverlap 1000 66 (buff int512) (len int512) = false /\
  option_map fst (rlp_encode_element 1000 66 (Some int512) int512_mem)
    = Some 66 /\
  int512_mem (buff int512) = 17 /\
  mem_after (rlp_encode_element 1000 66 (Some int512) int512_mem) int512_mem
    (buff int512) = 34.
Proof. vm_compute. repeat split; reflexivity. Qed.

(** C5, where the code parts from it.  The shift loop starts at index
    [listHdrByteCnt + rlpEncodedLen], one past the last byte of header and
    payload, and the check before it admits a capacity equal to that sum.
    One one-byte string into a destination of two bytes: the call returns 2,
    the two bytes are C1 01, and the byte at index 2, which is the capacity,
    has been overwritten with the old byte at index 1. *)
Theorem rlp_encode_list_writes_at_capacity :
  option_map fst (rlp_encode_list 1000 2 (Some [one]) one_mem) = Some 2 /\
  read_bytes (mem_after (rlp_encode_list 1000 2 (Some [one]) one_mem) one_mem)
    1000 2 = [0xC1; 1] /\
  one_mem (1000 + 2) = 204 /\
  mem_after (rlp_encode_list 1000 2 (Some [one]) one_mem) one_mem (1000 + 2)
    = 187.
Proof. vm_compute. repeat split; reflexivity. Qed.

(* -------------------------------------------------------------------------- *)
(** ** Validation failures of the list *)

(** The first loop over a prefix that passes goes on to the rest with the
    space the prefix has taken removed. *)
Lemma preflight_app o c pre rest :
  forall sr,
  Forall (fun x => 0 <= len x < 2 ^ 64 - 1) pre ->
  0 <= sr < 2 ^ 64 -> space_needed pre <= sr ->
  Forall (fun x => rlp_memoverlap o c (buff x) (len x) = false) pre ->
  preflight o c (pre ++ rest) sr = preflight o c rest (sr - space_needed pre).
Proof.
  induction pre as [|x pre IH]; intros sr Hl Hsr Hsp Hov.
  - cbn. now rewrite Z.sub_0_r.
  - inversion Hl as [|? ? Hx Hl']. inversion Hov as [|? ? Ox Hov']. subst.
    cbn [space_needed fold_right] in Hsp. fold (space_needed pre) in Hsp.
    assert (0 <= space_needed pre).
    { clear -Hl'. induction Hl' as [|y l Hy _ IHl]; cbn; [lia|].
      fold (space_needed l). lia. }
    cbn [app preflight]. rewrite (to_size_t_small (len x + 1)) by lia.
    destruct (Z.ltb_spec sr (len x + 1)); [lia|].
    rewrite Ox. rewrite to_size_t_small by lia.
    rewrite IH by (assumption || lia).
    cbn [space_needed fold_right]. fold (space_needed pre). f_equal. lia.
Qed.



(* -------------------------------------------------------------------------- *)
(** ** Element failures in the payload pass *)

Lemma encode_each_app o c pre rest :
  forall acc m,
  encode_each o c (pre ++ rest) acc m =
  match encode_each o c pre acc m with
  | Some (Completed acc' m') => encode_each o c rest acc' m'
  | r => r
  end.
Proof.
  induction pre as [|x pre IH]; intros acc m; [reflexivity|].
  cbn [app encode_each].
  destruct (rlp_encode_element (o + acc) (to_size_t (c - acc)) (Some x) m)
    as [[ret m1]|]; [|reflexivity].
  destruct (ret <? 0); [reflexivity|]. apply IH.
Qed.

(** C10.  When the arguments and the pre-flight pass are in order, the
    elements [pre] have been encoded (leaving [acc] bytes of payload and the
    memory [m1]) and the call of [rlp_encode_element] for the next element
    [e] returns the negative value [r], then [rlp_encode_list] returns that
    same [r], with the memory as that call left it: the elements after [e]
    are not looked at and the code is not replaced. *)
Theorem rlp_encode_list_forwards_error o c pre e post m acc m1 r m2 :
  o <> NULL -> c <> 0 ->
  preflight o c (pre ++ e :: post) c = None ->
  encode_each o c pre 0 m = Some (Completed acc m1) ->
  rlp_encode_element (o + acc) (to_size_t (c - acc)) (Some e) m1
    = Some (r, m2) ->
  r < 0 ->
  rlp_encode_list o c (Some (pre ++ e :: post)) m = Some (r, m2).
Proof.
  intros Ho Hc Hpre Hpass He Hr. unfold rlp_encode_list.
  destruct (Z.eqb_spec o NULL); [contradiction|].
  destruct (Z.eqb_spec c 0); [contradiction|]. cbn [orb].
  rewrite Hpre, encode_each_app, Hpass. cbn [encode_each]. rewrite He.
  destruct (Z.ltb_spec r 0); [reflexivity|lia].
Qed.

Lemma rlp_encode_list_forwards_error_witness :
  rlp_encode_list 1000 100 (Some ([gas_price] ++ bad_width :: [five])) tx_mem
  = Some (ERR_RLP_EBADARG,
          mem_after (rlp_encode_element 1000 100 (Some gas_price) tx_mem)
            tx_mem).
Proof.
  apply (rlp_encode_list_forwards_error 1000 100 [gas_price] bad_width [five]
           tx_mem 4
           (mem_after (rlp_encode_element 1000 100 (Some gas_price) tx_mem)
              tx_mem)).
  - cbv. congruence.
  - lia.
  - reflexivity.
  - reflexivity.
  - reflexivity.
  - reflexivity.
Defined.

(* -------------------------------------------------------------------------- *)
(** ** Every call returns *)

(** On a destination below 2 GiB no loop of the two functions runs on a
    negative [int]: the calls return. *)
Lemma rlp_encode_element_returns o c e m :
  0 <= len e < 2 ^ 64 - 1 -> c < 2 ^ 31 ->
  exists r m', rlp_encode_element o c (Some e) m = Some (r, m') /\
               (r < 0 \/ 1 <= r <= c).
Proof.
  intros Hl Hc.
  destruct (rlp_encode_element_cases o c e m Hl Hc)
    as [(_ & R)|[(_ & _ & R)|[(_ & _ & _ & R)|
        [(_ & _ & _ & _ & _ & R)|(_ & _ & _ & Hn & m1 & R & _)]]]];
    rewrite R; do 2 eexists; (split; [reflexivity|]);
    try (left; reflexivity).
  right. exact Hn.
Qed.

Lemma encode_each_returns o c es :
  forall acc m,
  Forall (fun e => 0 <= len e < 2 ^ 64 - 1) es ->
  0 <= acc <= c -> c < 2 ^ 31 ->
  exists res, encode_each o c es acc m = Some res /\
    match res with
    | Returned ret _ => ret < 0
    | Completed total _ => acc <= total <= c
    end.
Proof.
  induction es as [|e es IH]; intros acc m Hes Ha Hc.
  - eexists. split; [reflexivity|]. cbn. lia.
  - inversion Hes as [|? ? Hl Hes']. subst. cbn [encode_each].
    rewrite (to_size_t_small (c - acc)) by lia.
    destruct (rlp_encode_element_returns (o + acc) (c - acc) e m Hl
                ltac:(lia)) as (r & m1 & R & Hr).
    rewrite R. destruct (Z.ltb_spec r 0).
    + eexists. split; [reflexivity|]. assumption.
    + rewrite to_size_t_small by lia.
      destruct (IH (acc + r) m1 Hes' ltac:(lia) Hc) as (res & Hres & Hm).
      exists res. split; [assumption|].
      destruct res; [assumption|lia].
Qed.



(* -------------------------------------------------------------------------- *)
(** ** A destination that is large enough *)

Lemma rlp_item_length_le P :
  Z.of_nat (length P) < 2 ^ 31 ->
  Z.of_nat (length (rlp_item P)) <= Z.of_nat (length P) + 5.
Proof.
  intros H. unfold rlp_item.
  destruct (Z.of_nat (length P) =? 0); [cbn; lia|].
  destruct ((Z.of_nat (length P) =? 1) && (hd 0 P <? 128)); [lia|].
  destruct (Z.of_nat (length P) <=? 55); cbn [length]; [lia|].
  rewrite length_app, be_bytes_length.
  pose proof (byte_length_int (Z.of_nat (length P)) ltac:(lia)). lia.
Qed.

Lemma space_ample_nonneg es :
  Forall element_valid es -> 0 <= space_ample es.
Proof.
  induction 1 as [|e es (_ & _ & He) _ IH]; cbn; [lia|].
  fold (space_ample es). lia.
Qed.

Lemma encode_each_succeeds o c es :
  forall acc m,
  Forall element_valid es -> 0 < o ->
  Forall (fun e => rlp_memoverlap o c (buff e) (len e) = false) es ->
  0 <= acc -> acc + space_ample es <= c -> c < 2 ^ 31 ->
  exists total m',
    encode_each o c es acc m = Some (Completed total m') /\
    total <= acc + space_ample es.
Proof.
  induction es as [|e es IH]; intros acc m Hv Ho Hov Ha Hsp Hc.
  - do 2 eexists. split; [reflexivity|]. cbn. lia.
  - inversion Hv as [|? ? (Ht & Hm & Hl) Hv']. subst.
    inversion Hov as [|? ? Oe Hov']. subst.
    cbn [space_ample fold_right] in Hsp |- *. fold (space_ample es) in Hsp |- *.
    pose proof (space_ample_nonneg es Hv') as Hnn.
    cbn [encode_each]. rewrite (to_size_t_small (c - acc)) by lia.
    pose proof (canonical_payload_length m e Hl) as HL.
    pose proof (rlp_item_length_le (canonical_payload m e) ltac:(lia)) as Hn.
    apply rlp_memoverlap_false in Oe.
    destruct (rlp_encode_element_cases (o + acc) (c - acc) e m ltac:(lia)
                ltac:(lia))
      as [(Hna & _)|[(_ & Hlt & _)|[(_ & _ & Ho' & _)|
          [(_ & _ & _ & HL55 & Hlt & _)|
           (_ & _ & _ & Hn1 & m1 & R & _)]]]].
    + exfalso. apply Hna. unfold element_args_ok, NULL. repeat split;
        try assumption; lia.
    + lia.
    + exfalso. apply rlp_memoverlap_true in Ho'; lia.
    + exfalso.
      pose proof (byte_length_int
                    (Z.of_nat (length (canonical_payload m e)))
                    ltac:(lia)). lia.
    + rewrite R.
      destruct (Z.ltb_spec
                  (Z.of_nat (length (rlp_item (canonical_payload m e)))) 0);
        [lia|].
      rewrite to_size_t_small by lia.
      destruct (IH (acc + Z.of_nat (length (rlp_item (canonical_payload m e))))
                  m1 Hv' Ho Hov' ltac:(lia) ltac:(lia) Hc)
        as (total & m' & Hpass & Htot).
      exists total, m'. split; [assumption|lia].
Qed.

(** A non-empty list of valid elements whose sources the overlap test
    accepts, in a destination with [space_ample] bytes and five more for the
    list header: the list encode returns a length. *)
Lemma rlp_encode_list_succeeds o c es m :
  es <> [] -> Forall element_valid es -> 0 < o ->
  Forall (fun e => rlp_memoverlap o c (buff e) (len e) = false) es ->
  space_ample es + 5 <= c -> c < 2 ^ 31 ->
  exists n m', rlp_encode_list o c (Some es) m = Some (n, m') /\ 1 <= n.
Proof.
  intros Hne Hv Ho Hov Hsp Hc.
  pose proof (space_ample_nonneg es Hv) as Hnn.
  assert (Hr : Forall (fun x => 0 <= len x < 2 ^ 64 - 1) es).
  { assert (Hb : forall l, Forall element_valid l ->
                 forall x, In x l -> 0 <= len x <= space_ample l).
    { induction 1 as [|y l (_ & _ & Hy) Hl IHl]; intros x Hx; [easy|].
      cbn [space_ample fold_right]. fold (space_ample l).
      pose proof (space_ample_nonneg l Hl).
      destruct Hx as [->|Hx]; [lia|]. specialize (IHl x Hx). lia. }
    apply Forall_forall. intros x Hx. specialize (Hb es Hv x Hx). lia. }
  assert (Hsn : space_needed es <= space_ample es).
  { clear -Hv. induction Hv as [|e es _ _ IH]; cbn; [lia|].
    fold (space_needed es). fold (space_ample es). lia. }
  unfold rlp_encode_list.
  destruct (Z.eqb_spec o NULL); [unfold NULL in *; lia|].
  destruct (Z.eqb_spec c 0); [lia|]. cbn [orb].
  pose proof (preflight_app o c es [] c Hr ltac:(lia) ltac:(lia) Hov) as Hp.
  rewrite app_nil_r in Hp. rewrite Hp. cbn [preflight].
  destruct (encode_each_succeeds o c es 0 m Hv Ho Hov ltac:(lia) ltac:(lia) Hc)
    as (total & m1 & Hpass & Htot).
  rewrite Hpass.
  assert (Hes : Forall (fun e => size_t_range (len e)) es).
  { eapply Forall_impl; [|exact Hr]. unfold size_t_range. cbn. lia. }
  destruct (encode_each_frame o c es 0 m total m1 Hes ltac:(lia) Hc Hpass)
    as [Ht _].
  assert (Ht1 : 1 <= total).
  { destruct es; [congruence|]. cbn [length] in Ht. lia. }
  destruct (list_finish_spec o c total m1 Ht1 ltac:(lia) Hc) as [_ Hyes].
  destruct Hyes as (m3 & Hfin & _).
  - rewrite rlp_list_header_length by lia.
    pose proof (byte_length_int total ltac:(lia)).
    destruct (total <=? 55); lia.
  - rewrite Hfin. do 2 eexists. split; [reflexivity|]. lia.
Qed.

(* -------------------------------------------------------------------------- *)
(** ** The list encoding *)




(* ========================================================================== *)
(** * Further properties of the source *)

(* -------------------------------------------------------------------------- *)
(** ** The width table *)

Lemma type_of_code_type_code t : type_of_code (type_code t) = t.
Proof. destruct t; reflexivity. Qed.

(** X1.  [rlp_int_type_from_size] and [rlp_int_size_from_type] are inverse
    to each other on the eight widths 1, 2, 4, ..., 128: a width gives the
    integer type of that width, which [rlp_type_mem_check] accepts with it,
    and the width of an integer type gives that type back.  Every other size
    gives 4294967169, the value [ERR_RLP_EBADARG] (-127) takes as an
    [RlpType_t]: it is the code of no type, and it is not negative, so that
    no result of the function is below 0. *)
Theorem rlp_int_type_from_size_lookup s :
  (In s integer_widths ->
   exists t, rlp_int_type_from_size s = type_code t /\
     RLP_TYPE_IS_INTEGER_TYPE t = true /\
     rlp_int_size_from_type t = s /\
     rlp_type_mem_check s t = true) /\
  (~ In s integer_widths ->
   rlp_int_type_from_size s = to_unsigned_int ERR_RLP_EBADARG /\
   rlp_int_type_from_size s = 4294967169) /\
  (forall t, RLP_TYPE_IS_INTEGER_TYPE t = true ->
     rlp_int_type_from_size (rlp_int_size_from_type t) = type_code t) /\
  (forall t, type_code t <> to_unsigned_int ERR_RLP_EBADARG) /\
  0 <= rlp_int_type_from_size s.
Proof.
  assert (Hbad : ~ In s integer_widths ->
                 rlp_int_type_from_size s = to_unsigned_int ERR_RLP_EBADARG).
  { intros H. unfold integer_widths in H. cbn [In] in H.
    unfold rlp_int_type_from_size. cbn.
    repeat match goal with
    | |- context [s =? ?k] =>
      destruct (Z.eqb_spec s k); [exfalso; apply H; subst; tauto|]
    end.
    reflexivity. }
  assert (Hin : In s integer_widths ->
                exists t, rlp_int_type_from_size s = type_code t /\
                  RLP_TYPE_IS_INTEGER_TYPE t = true /\
                  rlp_int_size_from_type t = s /\
                  rlp_type_mem_check s t = true);
    [|split; [exact Hin|split; [|split; [|split]]]].
  - intros H. unfold integer_widths in H. cbn [In] in H.
    destruct H as [<-|[<-|[<-|[<-|[<-|[<-|[<-|[<-|[]]]]]]]]].
    + exists RLP_TYPE_INT8. repeat split.
    + exists RLP_TYPE_INT16. repeat split.
    + exists RLP_TYPE_INT32. repeat split.
    + exists RLP_TYPE_INT64. repeat split.
    + exists RLP_TYPE_INT128. repeat split.
    + exists RLP_TYPE_INT256. repeat split.
    + exists RLP_TYPE_INT512. repeat split.
    + exists RLP_TYPE_INT1024. repeat split.
  - intros H. split; [exact (Hbad H)|]. rewrite (Hbad H). reflexivity.
  - intros t Ht. destruct t; try discriminate Ht; reflexivity.
  - intros t. destruct t; discriminate.
  - destruct (in_dec Z.eq_dec s integer_widths) as [H|H].
    + destruct (Hin H) as (t & -> & _). destruct t; discriminate.
    + rewrite (Hbad H). discriminate.
Qed.

Lemma rlp_int_type_from_size_lookup_witness :
  exists t, rlp_int_type_from_size 32 = type_code t /\
    RLP_TYPE_IS_INTEGER_TYPE t = true /\
    rlp_int_size_from_type t = 32 /\
    rlp_type_mem_check 32 t = true.
Proof.
  apply (proj1 (rlp_int_type_from_size_lookup 32)).
  cbv. tauto.
Defined.

(* -------------------------------------------------------------------------- *)
(** ** The overlap test, as it answers *)

(** X2.  For two spans inside the address space (address and size are not
    negative and their sum is below 2^64, so that the pointer sums of the
    test do not wrap), [rlp_memoverlap] does not depend on the order of the
    spans; it answers yes when they share an address, and no when there is
    at least one byte between them. *)
Theorem rlp_memoverlap_answers a sza b szb :
  span_in_space a sza -> span_in_space b szb ->
  rlp_memoverlap a sza b szb = rlp_memoverlap b szb a sza /\
  (regions_intersect a sza b szb -> rlp_memoverlap a sza b szb = true) /\
  (a + sza < b \/ b + szb < a -> rlp_memoverlap a sza b szb = false).
Proof.
  intros (Ha & Hsa & Hae) (Hb & Hsb & Hbe).
  unfold rlp_memoverlap, regions_intersect.
  destruct (Z.eqb_spec a b), (Z.eqb_spec b a), (Z.ltb_spec a b),
    (Z.ltb_spec b a), (Z.geb_spec (a + sza) b), (Z.geb_spec (b + szb) a);
    cbn; repeat split; try reflexivity; try lia;
    try (intros (x & Hx1 & Hx2); lia).
Qed.

Lemma rlp_memoverlap_answers_witness :
  rlp_memoverlap 1000 66 1067 64 = false.
Proof.
  refine (proj2 (proj2 (rlp_memoverlap_answers 1000 66 1067 64 _ _)) _).
  - unfold span_in_space. lia.
  - unfold span_in_space. lia.
  - lia.
Defined.

(* -------------------------------------------------------------------------- *)
(** ** The errors of [rlp_encode_element] *)




(** X4.  On a destination below 2 GiB a call of [rlp_encode_element] that
    returns a negative value has written nothing, and the value is one of
    [ERR_RLP_EBADARG], [ERR_RLP_EILLEGALMEM] and [ERR_RLP_ENOMEM]; any other
    call returns the number of bytes of the encoding, which is at least 1
    and at most the capacity.  The function never returns 0. *)
Theorem rlp_encode_element_error_atomic o c e m r m' :
  0 <= len e < 2 ^ 64 - 1 -> c < 2 ^ 31 ->
  rlp_encode_element o c (Some e) m = Some (r, m') ->
  (r < 0 ->
   m' = m /\
   (r = ERR_RLP_EBADARG \/ r = ERR_RLP_EILLEGALMEM \/ r = ERR_RLP_ENOMEM)) /\
  (0 <= r -> 1 <= r <= c).
Proof.
  intros Hl Hc H.
  destruct (rlp_encode_element_cases o c e m Hl Hc)
    as [(_ & R)|[(_ & _ & R)|[(_ & _ & _ & R)|
        [(_ & _ & _ & _ & _ & R)|(_ & _ & _ & Hn & m1 & R & _)]]]];
    rewrite R in H; injection H as <- <-.
  - split; [intros _; split; [reflexivity|tauto]|]. intros Hr. cbv in Hr.
    now contradiction Hr.
  - split; [intros _; split; [reflexivity|tauto]|]. intros Hr. cbv in Hr.
    now contradiction Hr.
  - split; [intros _; split; [reflexivity|tauto]|]. intros Hr. cbv in Hr.
    now contradiction Hr.
  - split; [intros _; split; [reflexivity|tauto]|]. intros Hr. cbv in Hr.
    now contradiction Hr.
  - split; [lia|]. intros _. exact Hn.
Qed.

Lemma rlp_encode_element_error_atomic_witness :
  mem_after (rlp_encode_element 1000 4 (Some gas_price) tx_mem) tx_mem
    = tx_mem /\
  (ERR_RLP_ENOMEM = ERR_RLP_EBADARG \/ ERR_RLP_ENOMEM = ERR_RLP_EILLEGALMEM \/
   ERR_RLP_ENOMEM = ERR_RLP_ENOMEM).
Proof.
  refine (proj1 (rlp_encode_element_error_atomic 1000 4 gas_price tx_mem
                   ERR_RLP_ENOMEM
                   (mem_after (rlp_encode_element 1000 4 (Some gas_price)
                                 tx_mem) tx_mem) _ _ _) _).
  - cbv. split; congruence.
  - reflexivity.
  - reflexivity.
  - reflexivity.
Defined.

(** X5.  When the arguments are in order and the destination has the
    declared length plus one, [rlp_encode_element] returns
    [ERR_RLP_EILLEGALMEM], writing nothing, for every source that shares an
    address with the destination, and does not return it for any source
    with at least one byte between it and the destination. *)
Theorem rlp_encode_element_overlap o c e m :
  element_args_ok o c e -> 0 <= len e < 2 ^ 64 - 1 ->
  len e + 1 <= c -> c < 2 ^ 31 ->
  (regions_intersect o c (buff e) (len e) ->
   rlp_encode_element o c (Some e) m = Some (ERR_RLP_EILLEGALMEM, m)) /\
  (buff e + len e < o \/ o + c < buff e ->
   forall m', rlp_encode_element o c (Some e) m
              <> Some (ERR_RLP_EILLEGALMEM, m')).
Proof.
  intros Ha Hl Hcap Hc.
  destruct (rlp_encode_element_cases o c e m Hl Hc)
    as [(Hna & _)|[(_ & Hlt & _)|[(_ & _ & Ho & R)|
        [(_ & _ & Ho & _ & _ & R)|(_ & _ & Ho & Hn & m1 & R & _)]]]];
    try contradiction; try lia.
  - split; [intros _; exact R|].
    intros Hsep. exfalso. apply rlp_memoverlap_true in Ho; lia.
  - split.
    + intros Hi. apply rlp_memoverlap_complete in Hi. congruence.
    + intros _ m' H. rewrite R in H. injection H as H _. discriminate H.
  - split.
    + intros Hi. apply rlp_memoverlap_complete in Hi. congruence.
    + intros _ m' H. rewrite R in H. injection H as H _.
      unfold ERR_RLP_EILLEGALMEM, INT8_MIN in H. lia.
Qed.

Lemma rlp_encode_element_overlap_witness :
  rlp_encode_element 1998 10 (Some gas_price) tx_mem =
    Some (ERR_RLP_EILLEGALMEM, tx_mem).
Proof.
  refine (proj1 (rlp_encode_element_overlap 1998 10 gas_price tx_mem
                   _ _ _ _) _).
  - repeat split; cbv; congruence.
  - cbv. split; congruence.
  - cbv. congruence.
  - reflexivity.
  - exists 2000. cbv. repeat split; congruence.
Defined.

(* -------------------------------------------------------------------------- *)
(** ** The wire format of one element *)




(** The length bytes of a positive length: they carry the length, and the
    first of them is not zero. *)
Lemma be_bytes_byte_length L :
  0 < L ->
  let k := Z.to_nat (byte_length L) in
  be_value (be_bytes k L) = L /\ nth 0 (be_bytes k L) 0 <> 0.
Proof.
  intros HL k.
  pose proof (byte_length_pos L HL) as HK.
  destruct (byte_length_bounds L HL) as [Hlo Hhi].
  assert (Hk : Z.of_nat k = byte_length L) by (unfold k; lia).
  split.
  - apply be_value_be_bytes. rewrite Hk. lia.
  - rewrite be_bytes_nth by lia. rewrite Hk, Z.sub_0_r.
    set (B := 256 ^ (byte_length L - 1)) in *.
    assert (HB : 0 < B) by (unfold B; apply Z.pow_pos_nonneg; lia).
    assert (Hhi' : L < 256 * B).
    { unfold B. rewrite <- Z.pow_succ_r by lia.
      replace (Z.succ (byte_length L - 1)) with (byte_length L) by lia.
      exact Hhi. }
    assert (1 <= L / B) by (apply Z.div_le_lower_bound; lia).
    assert (L / B < 256) by (apply Z.div_lt_upper_bound; lia).
    unfold to_uint8. zlia.
Qed.



(* -------------------------------------------------------------------------- *)
(** ** Integers *)

(** The scan stops at the first byte that is not zero, or finds none. *)
Lemma scan_zero_loop_first_nonzero n :
  forall m buffBase len0 s,
  Z.of_nat n = len0 - s -> 0 <= s -> len0 < 2 ^ 64 ->
  s < len0 \/ len0 = 0 ->
  let r := scan_zero_loop n m buffBase len0 s (buffBase, len0) in
  (r = (buffBase, 0) /\
   forall i, s <= i < len0 -> m (buffBase + i) = 0) \/
  (exists k, s <= k < len0 /\ r = (buffBase + k, len0 - k) /\
     m (buffBase + k) <> 0 /\
     forall i, s <= i < k -> m (buffBase + i) = 0).
Proof.
  induction n as [|n IH]; intros m buffBase len0 s Hn Hs Hlen Hlt.
  - left. cbn. split; [f_equal; lia|]. intros i Hi. lia.
  - cbn zeta. cbn [scan_zero_loop].
    destruct (Z.ltb_spec s len0); [|lia].
    destruct (Z.eqb_spec (m (buffBase + s)) 0) as [E|E]; cbn [negb].
    + rewrite to_size_t_small by lia.
      destruct (Z.eqb_spec s (len0 - 1)) as [E1|E1].
      * assert (n = 0%nat) as -> by lia. left. cbn. split; [reflexivity|].
        intros i Hi. replace i with s by lia. exact E.
      * destruct (IH m buffBase len0 (s + 1) ltac:(lia) ltac:(lia) Hlen
                    ltac:(lia)) as [[R Hz]|(k & Hk & R & Hnz & Hz)].
        -- left. split; [exact R|]. intros i Hi.
           destruct (Z.eq_dec i s) as [->|]; [exact E|]. apply Hz. lia.
        -- right. exists k. split; [lia|]. split; [exact R|].
           split; [exact Hnz|]. intros i Hi.
           destruct (Z.eq_dec i s) as [->|]; [exact E|]. apply Hz. lia.
    + right. exists s. cbn [fst snd]. rewrite to_size_t_small by lia.
      split; [lia|]. split; [reflexivity|]. split; [exact E|].
      intros i Hi. lia.
Qed.

Lemma be_value_strip l : be_value (strip_leading_zeros l) = be_value l.
Proof.
  induction l as [|b l IH]; [reflexivity|].
  cbn [strip_leading_zeros]. destruct (Z.eqb_spec b 0) as [->|]; [|reflexivity].
  rewrite IH. reflexivity.
Qed.

(** X8.  The scan over an integer element keeps its value and drops nothing
    else: what it leaves is a suffix of the source that stands for the same
    number in big-endian, every byte in front of it is zero, and its first
    byte is not; it is empty exactly when every byte of the source is zero. *)
Theorem canonical_view_integer m e :
  RLP_TYPE_IS_INTEGER_TYPE (type e) = true -> 0 <= len e < 2 ^ 64 ->
  let p := fst (canonical_view m e) in
  let L := snd (canonical_view m e) in
  0 <= L <= len e /\
  be_value (read_bytes m p (Z.to_nat L)) =
    be_value (read_bytes m (buff e) (Z.to_nat (len e))) /\
  (L = 0 <-> forall i, 0 <= i < len e -> m (buff e + i) = 0) /\
  (0 < L ->
   p + L = buff e + len e /\ m p <> 0 /\
   forall i, 0 <= i < len e - L -> m (buff e + i) = 0).
Proof.
  intros Ht Hl p L.
  destruct (canonical_view_spec m e Hl) as (Hsnd & Hrd & _ & _).
  pose proof (canonical_payload_length m e ltac:(lia)) as HLl.
  fold L in Hsnd. fold p in Hrd.
  assert (Hv : be_value (read_bytes m p (Z.to_nat L)) =
               be_value (read_bytes m (buff e) (Z.to_nat (len e)))).
  { rewrite Hsnd, Nat2Z.id, Hrd. unfold canonical_payload. rewrite Ht.
    apply be_value_strip. }
  pose proof (scan_zero_loop_first_nonzero (Z.to_nat (len e)) m (buff e)
                (len e) 0 ltac:(lia) ltac:(lia) ltac:(lia) ltac:(lia)) as Hs.
  cbv zeta in Hs.
  assert (Ev : canonical_view m e =
               scan_zero_loop (Z.to_nat (len e)) m (buff e) (len e) 0
                 (buff e, len e)).
  { unfold canonical_view. now rewrite Ht. }
  rewrite <- Ev in Hs.
  assert (Ep : canonical_view m e = (p, L)) by (unfold p, L; now destruct (canonical_view m e)).
  rewrite Ep in Hs. clearbody p L.
  destruct Hs as [[R Hz]|(k & Hk & R & Hnz & Hz)]; injection R as -> ->.
  - split; [lia|]. split; [exact Hv|]. split; [tauto|]. lia.
  - split; [lia|]. split; [exact Hv|]. split.
    + split; [lia|]. intros Hall. exfalso. apply Hnz. apply Hall. lia.
    + intros _. split; [lia|]. split; [exact Hnz|].
      intros i Hi. apply Hz. lia.
Qed.

Lemma canonical_view_integer_witness :
  0 <= snd (canonical_view tx_mem gas_price) <= len gas_price /\
  be_value (read_bytes tx_mem (fst (canonical_view tx_mem gas_price))
              (Z.to_nat (snd (canonical_view tx_mem gas_price)))) =
    be_value (read_bytes tx_mem (buff gas_price) (Z.to_nat (len gas_price))).
Proof.
  refine (let H := canonical_view_integer tx_mem gas_price _ _ in
          conj (proj1 H) (proj1 (proj2 H))).
  - reflexivity.
  - cbv. split; congruence.
Defined.

(* -------------------------------------------------------------------------- *)
(** ** Reading the encoding back *)

Lemma firstn_app_exact {A} (l1 l2 : list A) n :
  length l1 = n -> firstn n (l1 ++ l2) = l1.
Proof.
  intros <-. rewrite firstn_app, Nat.sub_diag, firstn_all. cbn.
  apply app_nil_r.
Qed.

Lemma skipn_app_exact {A} (l1 l2 : list A) n :
  length l1 = n -> skipn n (l1 ++ l2) = l2.
Proof.
  intros <-. rewrite skipn_app, Nat.sub_diag, skipn_all. reflexivity.
Qed.

(** The decoder undoes the item encoding, whatever follows the item. *)
Lemma rlp_item_decode_item P rest :
  Z.of_nat (length P) < 2 ^ 64 ->
  rlp_item_decode (rlp_item P ++ rest) = Some (P, rest).
Proof.
  intros HP. set (L := Z.of_nat (length P)) in *.
  destruct (rlp_item_cases P) as (C0 & C1 & C2 & C3). fold L in C0, C1, C2, C3.
  destruct (Z.eq_dec L 0) as [E0|E0].
  { rewrite C0 by assumption. destruct P; [|cbn in L; lia]. reflexivity. }
  destruct (Z.le_gt_cases L 55) as [E2|E2].
  - assert (Hv : (L = 1 /\ hd 0 P < 128) \/ ~ (L = 1 /\ hd 0 P < 128)) by lia.
    destruct Hv as [[E1 Hb]|Hv].
    + rewrite C1 by assumption.
      destruct P as [|b [|b' P]]; cbn [length] in L; try lia.
      cbn [hd] in *. cbn [app rlp_item_decode].
      destruct (Z.ltb_spec b 128); [reflexivity|lia].
    + rewrite C2 by (assumption || lia). cbn [app rlp_item_decode].
      destruct (Z.ltb_spec (128 + L) 128); [lia|].
      destruct (Z.leb_spec (128 + L) 183); [|lia].
      replace (Z.to_nat (128 + L - 128)) with (length P) by lia.
      rewrite length_app.
      destruct (Nat.leb_spec (length P) (length P + length rest)); [|lia].
      now rewrite firstn_app_exact, skipn_app_exact.
  - rewrite (C3 E2).
    pose proof (byte_length_pos L ltac:(lia)) as HK1.
    assert (HK8 : byte_length L <= 8) by (apply byte_length_below; lia).
    destruct (be_bytes_byte_length L ltac:(lia)) as [Hval _].
    set (k := Z.to_nat (byte_length L)) in *.
    cbn [app rlp_item_decode].
    destruct (Z.ltb_spec (183 + byte_length L) 128); [lia|].
    destruct (Z.leb_spec (183 + byte_length L) 183); [lia|].
    destruct (Z.leb_spec (183 + byte_length L) 191); [|lia].
    replace (Z.to_nat (183 + byte_length L - 183)) with k by lia.
    rewrite <- app_assoc.
    rewrite (firstn_app_exact (be_bytes k L) (P ++ rest) k)
      by apply be_bytes_length.
    rewrite (skipn_app_exact (be_bytes k L) (P ++ rest) k)
      by apply be_bytes_length.
    rewrite Hval. replace (Z.to_nat L) with (length P) by lia.
    rewrite length_app.
    destruct (Nat.leb_spec (length P) (length P + length rest)); [|lia].
    now rewrite firstn_app_exact, skipn_app_exact.
Qed.

Lemma rlp_items_decode_items Ps :
  Forall (fun P => Z.of_nat (length P) < 2 ^ 64) Ps ->
  forall fuel, (length Ps <= fuel)%nat ->
  rlp_items_decode fuel (concat (map rlp_item Ps)) = Some Ps.
Proof.
  induction 1 as [|P Ps HP _ IH]; intros fuel Hf.
  - destruct fuel; reflexivity.
  - cbn [map concat].
    destruct (rlp_item P ++ concat (map rlp_item Ps)) as [|h t] eqn:E.
    { exfalso. pose proof (rlp_item_length_ge P) as [_ H1].
      apply (f_equal (@length Z)) in E. rewrite length_app in E.
      cbn in E. lia. }
    destruct fuel as [|fuel]; [cbn in Hf; lia|].
    cbn [rlp_items_decode]. rewrite <- E.
    rewrite rlp_item_decode_item by assumption.
    rewrite IH by (cbn in Hf; lia). reflexivity.
Qed.

Lemma concat_items_length Ps :
  (length Ps <= length (concat (map rlp_item Ps)))%nat.
Proof.
  induction Ps as [|P Ps IH]; cbn [map concat length]; [lia|].
  rewrite length_app. pose proof (rlp_item_length_ge P) as [_ H1]. lia.
Qed.

(** The list decoder undoes header and items. *)
Lemma rlp_list_decode_list Ps :
  Forall (fun P => Z.of_nat (length P) < 2 ^ 64) Ps ->
  let payload := concat (map rlp_item Ps) in
  rlp_list_decode (rlp_list_header (Z.of_nat (length payload)) ++ payload)
  = Some Ps.
Proof.
  intros HPs payload. set (total := Z.of_nat (length payload)).
  assert (Hit : rlp_items_decode (length payload) payload = Some Ps).
  { apply rlp_items_decode_items; [assumption|apply concat_items_length]. }
  unfold rlp_list_header.
  destruct (Z.leb_spec total 55) as [E|E].
  - cbn [app rlp_list_decode].
    destruct (Z.ltb_spec (192 + total) 192); [lia|].
    destruct (Z.leb_spec (192 + total) 247); [|lia].
    destruct (Z.eqb_spec (Z.of_nat (length payload)) (192 + total - 192));
      [exact Hit|lia].
  - pose proof (byte_length_pos total ltac:(lia)) as HK1.
    destruct (be_bytes_byte_length total ltac:(lia)) as [Hval _].
    set (k := Z.to_nat (byte_length total)) in *.
    cbn [app rlp_list_decode].
    destruct (Z.ltb_spec (247 + byte_length total) 192); [lia|].
    destruct (Z.leb_spec (247 + byte_length total) 247); [lia|].
    replace (Z.to_nat (247 + byte_length total - 247)) with k by lia.
    rewrite (firstn_app_exact (be_bytes k total) payload k)
      by apply be_bytes_length.
    rewrite (skipn_app_exact (be_bytes k total) payload k)
      by apply be_bytes_length.
    rewrite Hval. fold total. rewrite Z.eqb_refl. exact Hit.
Qed.



(* -------------------------------------------------------------------------- *)
(** ** What a list encode leaves behind *)

(** A list encode that returns a length, in full: the bytes, the length, the
    span written and the overlap tests passed. *)
Lemma rlp_encode_list_image o c es m n m' :
  es <> [] ->
  Forall (fun e => size_t_range (len e)) es ->
  0 <= c < 2 ^ 31 ->
  rlp_encode_list o c (Some es) m = Some (n, m') -> 0 <= n ->
  let payload := list_payload m es in
  let total := Z.of_nat (length payload) in
  read_bytes m' o (Z.to_nat n) = rlp_list_header total ++ payload /\
  n = Z.of_nat (length (rlp_list_header total)) + total /\
  1 <= total /\ n <= c /\
  (forall a, a < o \/ o + n < a -> m' a = m a) /\
  Forall (fun e => rlp_memoverlap o c (buff e) (len e) = false) es.
Proof.
  intros Hne Hes Hc H Hn payload total.
  destruct (rlp_encode_list_success o c es m n m' H Hn)
    as (Ho & Hc0 & Hpre & t & m1 & Hpass & Hfin).
  destruct (encode_each_frame o c es 0 m t m1 Hes ltac:(lia) ltac:(lia) Hpass)
    as [Ht Hfr1].
  assert (Ht1 : 1 <= t).
  { destruct es; [congruence|]. cbn [length] in Ht. lia. }
  destruct (list_finish_spec o c t m1 Ht1 ltac:(lia) ltac:(lia))
    as [Hno Hyes].
  destruct (Z.lt_ge_cases c (Z.of_nat (length (rlp_list_header t)) + t))
    as [E|E].
  { rewrite Hno in Hfin by assumption. injection Hfin as <- _.
    cbv in Hn. now contradiction Hn. }
  destruct (Hyes E) as (m3 & Hfin' & Hrd & _ & Hfr3).
  rewrite Hfin' in Hfin. injection Hfin as <- <-.
  assert (Hslack : item_slack t <= Z.of_nat (length (rlp_list_header t))).
  { rewrite rlp_list_header_length by lia.
    unfold item_slack, RLP_EXTENDED_LENGTH_THRESHOLD.
    destruct (Z.gtb_spec t 55), (Z.leb_spec t 55); lia. }
  pose proof (preflight_no_overlap o c es c Hpre) as Hall.
  assert (Hcontent : read_bytes m1 (o + 0) (Z.to_nat (t - 0)) = payload).
  { apply (encode_each_content o c c es 0 m t m1); try assumption; try lia.
    - intros e x He Hx. rewrite Forall_forall in Hall.
      pose proof (rlp_memoverlap_false _ _ _ _ (Hall e He)). lia.
    - rewrite Z.sub_0_r. lia. }
  rewrite Z.add_0_r, Z.sub_0_r in Hcontent.
  assert (Htot : total = t).
  { unfold total. rewrite <- Hcontent, read_bytes_length. lia. }
  rewrite Htot. rewrite Z.sub_0_r in Hfr1.
  split; [now rewrite Hrd, Hcontent|]. split; [reflexivity|].
  split; [assumption|]. split; [assumption|]. split; [|assumption].
  intros a Ha. rewrite Hfr3 by lia. apply Hfr1. lia.
Qed.

(** X10.  On a destination below 2 GiB the bytes a successful
    [rlp_encode_list] writes read back as the canonical payloads of the
    elements, in the order given: the reference decoder, run on the [n]
    bytes at the destination after a call that returned [n] for a non-empty
    list, gives them one for one. *)
Theorem rlp_encode_list_decodes o c es m n m' :
  es <> [] ->
  Forall (fun e => size_t_range (len e)) es ->
  0 <= c < 2 ^ 31 ->
  rlp_encode_list o c (Some es) m = Some (n, m') -> 0 <= n ->
  rlp_list_decode (read_bytes m' o (Z.to_nat n))
  = Some (map (canonical_payload m) es).
Proof.
  intros Hne Hes Hc H Hn.
  destruct (rlp_encode_list_image o c es m n m' Hne Hes Hc H Hn)
    as (Hrd & _).
  rewrite Hrd. unfold list_payload. rewrite <- (map_map _ rlp_item).
  apply rlp_list_decode_list.
  apply Forall_map. eapply Forall_impl; [|exact Hes].
  intros e He. unfold size_t_range in He. cbn beta.
  pose proof (canonical_payload_length m e ltac:(lia)). lia.
Qed.

Lemma rlp_encode_list_decodes_witness :
  rlp_list_decode (read_bytes tx_after 1000 (Z.to_nat 10))
  = Some (map (canonical_payload tx_mem) tx_fields).
Proof.
  refine (rlp_encode_list_decodes 1000 100 tx_fields tx_mem 10 tx_after
            _ _ _ _ _).
  - discriminate.
  - repeat constructor; cbv; congruence.
  - lia.
  - reflexivity.
  - lia.
Defined.

(** X11.  A successful [rlp_encode_list] on a non-empty list returns at
    least 2 and at most the capacity, changes no byte in front of the
    destination or beyond index [n] (the shift writes index [n] itself, the
    byte after the encoding), and leaves the source bytes of every element
    as they were. *)
Theorem rlp_encode_list_frame o c es m n m' :
  es <> [] ->
  Forall (fun e => size_t_range (len e)) es ->
  0 <= c < 2 ^ 31 ->
  rlp_encode_list o c (Some es) m = Some (n, m') -> 0 <= n ->
  2 <= n <= c /\
  (forall a, a < o \/ o + n < a -> m' a = m a) /\
  (forall e, In e es ->
     read_bytes m' (buff e) (Z.to_nat (len e)) =
     read_bytes m (buff e) (Z.to_nat (len e))).
Proof.
  intros Hne Hes Hc H Hn.
  destruct (rlp_encode_list_image o c es m n m' Hne Hes Hc H Hn)
    as (_ & En & Ht & Hnc & Hfr & Hov).
  split; [|split; [exact Hfr|]].
  - split; [|assumption].
    rewrite rlp_list_header_length in En by lia.
    pose proof (byte_length_nonneg
                  (Z.of_nat (length (list_payload m es)))).
    destruct (_ <=? 55); lia.
  - intros e He. apply read_bytes_ext. intros x Hx. apply Hfr.
    rewrite Forall_forall in Hov, Hes.
    pose proof (rlp_memoverlap_false _ _ _ _ (Hov e He)).
    specialize (Hes e He). unfold size_t_range in Hes. lia.
Qed.

Lemma rlp_encode_list_frame_witness :
  2 <= 10 <= 100 /\
  (forall a, a < 1000 \/ 1000 + 10 < a -> tx_after a = tx_mem a) /\
  (forall e, In e tx_fields ->
     read_bytes tx_after (buff e) (Z.to_nat (len e)) =
     read_bytes tx_mem (buff e) (Z.to_nat (len e))).
Proof.
  refine (rlp_encode_list_frame 1000 100 tx_fields tx_mem 10 tx_after
            _ _ _ _ _).
  - discriminate.
  - repeat constructor; cbv; congruence.
  - lia.
  - reflexivity.
  - lia.
Defined.

(* -------------------------------------------------------------------------- *)
(** ** When the list encode succeeds, and how it fails *)

Lemma list_payload_length_le m es :
  Forall element_valid es -> space_ample es < 2 ^ 31 ->
  Z.of_nat (length (list_payload m es)) <= space_ample es.
Proof.
  intros Hv. induction Hv as [|e es (_ & _ & He) Hv IH]; intros Hs.
  - cbn. lia.
  - pose proof (space_ample_nonneg es Hv) as Hnn.
    cbn [space_ample fold_right] in Hs |- *. fold (space_ample es) in Hs |- *.
    unfold list_payload in *. cbn [map concat]. rewrite length_app.
    pose proof (canonical_payload_length m e He).
    pose proof (rlp_item_length_le (canonical_payload m e) ltac:(lia)).
    specialize (IH ltac:(lia)). lia.
Qed.

(** X12.  A destination that is large enough.  For a non-empty list of
    elements that are byte strings or integers of the width of their type,
    with sources the overlap test accepts, a capacity of the declared
    lengths plus five bytes for each element and five for the list header
    is enough: [rlp_encode_list] returns a length, between 2 and that
    bound. *)
Theorem rlp_encode_list_ample o c es m :
  es <> [] -> Forall element_valid es -> 0 < o ->
  Forall (fun e => rlp_memoverlap o c (buff e) (len e) = false) es ->
  space_ample es + 5 <= c -> c < 2 ^ 31 ->
  exists n m', rlp_encode_list o c (Some es) m = Some (n, m') /\
    2 <= n <= space_ample es + 5.
Proof.
  intros Hne Hv Ho Hov Hsp Hc.
  destruct (rlp_encode_list_succeeds o c es m Hne Hv Ho Hov Hsp Hc)
    as (n & m' & H & Hn).
  exists n, m'. split; [exact H|].
  pose proof (space_ample_nonneg es Hv) as Hnn.
  assert (Hes : Forall (fun e => size_t_range (len e)) es).
  { assert (Hb : forall l, Forall element_valid l ->
                 forall x, In x l -> 0 <= len x <= space_ample l).
    { induction 1 as [|y l (_ & _ & Hy) Hl IHl]; intros x Hx; [easy|].
      cbn [space_ample fold_right]. fold (space_ample l).
      pose proof (space_ample_nonneg l Hl).
      destruct Hx as [->|Hx]; [lia|]. specialize (IHl x Hx). lia. }
    apply Forall_forall. intros x Hx. specialize (Hb es Hv x Hx).
    unfold size_t_range. lia. }
  destruct (rlp_encode_list_image o c es m n m' Hne Hes ltac:(lia) H
              ltac:(lia)) as (_ & En & Ht & _).
  pose proof (list_payload_length_le m es Hv ltac:(lia)) as Hle.
  rewrite rlp_list_header_length in En by lia.
  pose proof (byte_length_int (Z.of_nat (length (list_payload m es)))
                ltac:(lia)).
  destruct (_ <=? 55); lia.
Qed.

Lemma rlp_encode_list_ample_witness :
  exists n m', rlp_encode_list 1000 100 (Some tx_fields) tx_mem = Some (n, m') /\
    2 <= n <= space_ample tx_fields + 5.
Proof.
  apply (rlp_encode_list_ample 1000 100 tx_fields tx_mem).
  - discriminate.
  - repeat constructor; cbv; congruence.
  - lia.
  - repeat constructor.
  - cbv. congruence.
  - reflexivity.
Defined.

Lemma preflight_space o c es :
  Forall (fun x => 0 <= len x < 2 ^ 64 - 1) es ->
  forall sr, 0 <= sr < 2 ^ 64 ->
  preflight o c es sr = None -> space_needed es <= sr.
Proof.
  induction 1 as [|e es He _ IH]; intros sr Hsr H; [cbn; lia|].
  cbn [preflight] in H. rewrite (to_size_t_small (len e + 1)) in H by lia.
  destruct (Z.ltb_spec sr (len e + 1)); [discriminate|].
  destruct (rlp_memoverlap o c (buff e) (len e)); [discriminate|].
  rewrite to_size_t_small in H by lia.
  specialize (IH (sr - (len e + 1)) ltac:(lia) H).
  cbn [space_needed fold_right]. fold (space_needed es). lia.
Qed.

(** X13.  For elements whose declared lengths are below [SIZE_MAX] (so that
    no declared length plus one wraps to 0) and a capacity that is a
    [size_t], the pre-flight loop of [rlp_encode_list] lets a list through
    exactly when the capacity is at least the sum of the declared lengths
    plus one per element and the overlap test accepts every source. *)
Theorem preflight_accepts o c es :
  Forall (fun x => 0 <= len x < 2 ^ 64 - 1) es -> 0 <= c < 2 ^ 64 ->
  (preflight o c es c = None <->
   space_needed es <= c /\
   Forall (fun x => rlp_memoverlap o c (buff x) (len x) = false) es).
Proof.
  intros Hes Hc. split.
  - intros H. split; [|eapply preflight_no_overlap; eassumption].
    now apply (preflight_space o c es Hes c Hc).
  - intros [Hsp Hov].
    pose proof (preflight_app o c es [] c Hes Hc Hsp Hov) as Hp.
    rewrite app_nil_r in Hp. rewrite Hp. reflexivity.
Qed.

Lemma preflight_accepts_witness :
  preflight 1000 100 tx_fields 100 = None <->
  space_needed tx_fields <= 100 /\
  Forall (fun x => rlp_memoverlap 1000 100 (buff x) (len x) = false) tx_fields.
Proof.
  apply (preflight_accepts 1000 100 tx_fields).
  - repeat constructor; cbv; congruence.
  - lia.
Defined.

(** X14.  A byte string of 2 GiB or more.  When the declared length of a
    byte string lies between 2^31 and 2^32, the destination has room for it
    and the overlap test accepts it, [rlp_encode_element] does not return:
    the length is stored in an [int], where it is negative, and the loop
    that counts its bytes shifts it right until it is 0, which a negative
    [int] never is. *)
Theorem rlp_encode_element_hangs o c e m :
  type e = RLP_TYPE_BYTE_ARRAY -> o <> NULL ->
  2 ^ 31 <= len e < 2 ^ 32 -> len e + 1 <= c ->
  rlp_memoverlap o c (buff e) (len e) = false ->
  rlp_encode_element o c (Some e) m = None.
Proof.
  intros Ht Ho Hl Hc Hov.
  assert (Ha : element_args_ok o c e).
  { unfold element_args_ok, rlp_type_mem_check. rewrite Ht. cbn.
    repeat split; try assumption; try congruence. lia. }
  rewrite rlp_encode_element_checked by (assumption || lia).
  unfold element_body, canonical_view. rewrite Ht. cbn [RLP_TYPE_IS_INTEGER_TYPE
    type_code Z.geb Z.leb Z.compare Pos.compare Pos.compare_cont andb].
  cbv iota.
  unfold RLP_EXTENDED_LENGTH_THRESHOLD.
  destruct (Z.eqb_spec (len e) 0); [lia|].
  destruct (Z.eqb_spec (len e) 1); [lia|]. cbn [andb].
  destruct (Z.leb_spec (len e) 55); [lia|].
  rewrite length_of_length_loop_negative; [reflexivity|].
  unfold to_int. zlia.
Qed.

Lemma rlp_encode_element_hangs_witness :
  rlp_encode_element 1000 (2 ^ 31 + 1) (Some huge_string) zero_mem = None.
Proof.
  apply (rlp_encode_element_hangs 1000 (2 ^ 31 + 1) huge_string zero_mem).
  - reflexivity.
  - cbv. congruence.
  - cbv. split; congruence.
  - cbv. congruence.
  - reflexivity.
Defined.

Lemma encode_each_returned_code o c es :
  forall acc m ret m',
  Forall (fun e => 0 <= len e < 2 ^ 64 - 1) es ->
  0 <= acc <= c -> c < 2 ^ 31 ->
  encode_each o c es acc m = Some (Returned ret m') ->
  ret = ERR_RLP_EBADARG \/ ret = ERR_RLP_EILLEGALMEM \/ ret = ERR_RLP_ENOMEM.
Proof.
  induction es as [|e es IH]; intros acc m ret m' Hes Ha Hc H;
    [discriminate|].
  inversion Hes as [|? ? Hl Hes']. subst. cbn [encode_each] in H.
  rewrite (to_size_t_small (c - acc)) in H by lia.
  destruct (rlp_encode_element_cases (o + acc) (c - acc) e m Hl ltac:(lia))
    as [(_ & R)|[(_ & _ & R)|[(_ & _ & _ & R)|
        [(_ & _ & _ & _ & _ & R)|(_ & _ & _ & Hn & m1 & R & _)]]]];
    rewrite R in H.
  1-4: cbn in H; injection H as <- _; tauto.
  destruct (Z.ltb_spec (Z.of_nat (length (rlp_item (canonical_payload m e)))) 0);
    [lia|].
  rewrite to_size_t_small in H by lia.
  apply (IH (acc + Z.of_nat (length (rlp_item (canonical_payload m e))))
            m1 ret m' Hes' ltac:(lia) Hc H).
Qed.

Lemma list_finish_result o c total m1 r m' :
  0 <= total <= c -> c < 2 ^ 31 ->
  list_finish o c total m1 = Some (r, m') ->
  r = ERR_RLP_ENOMEM \/ 0 <= r <= c.
Proof.
  intros Ht Hc H.
  destruct (Z.eq_dec total 0) as [->|Hz].
  - unfold list_finish in H.
    change (list_hdr_count_loop int_shift_fuel (to_int 0) 0) with (Some 0) in H.
    cbv iota beta in H.
    change (0 >? RLP_EXTENDED_LENGTH_THRESHOLD) with false in H.
    cbv iota zeta in H. change (to_size_t (0 + 0)) with 0 in H.
    destruct (Z.gtb_spec 0 c); [lia|].
    injection H as <- _. right.
    change (to_int 0) with 0. lia.
  - destruct (list_finish_spec o c total m1 ltac:(lia) ltac:(lia) Hc)
      as [Hno Hyes].
    destruct (Z.lt_ge_cases c (Z.of_nat (length (rlp_list_header total))
                                + total)) as [E|E].
    + rewrite Hno in H by assumption. injection H as <- _. now left.
    + destruct (Hyes E) as (m3 & R & _). rewrite R in H.
      injection H as <- _. right. lia.
Qed.

(** X15.  Whatever [rlp_encode_list] is given (a destination below 2 GiB,
    declared lengths below [SIZE_MAX]), a negative result is one of
    [ERR_RLP_EBADARG], [ERR_RLP_EILLEGALMEM] and [ERR_RLP_ENOMEM], and any
    other result is at most the capacity. *)
Theorem rlp_encode_list_result o c arr m r m' :
  (forall es, arr = Some es ->
              Forall (fun e => 0 <= len e < 2 ^ 64 - 1) es) ->
  0 <= c < 2 ^ 31 ->
  rlp_encode_list o c arr m = Some (r, m') ->
  (r < 0 ->
   r = ERR_RLP_EBADARG \/ r = ERR_RLP_EILLEGALMEM \/ r = ERR_RLP_ENOMEM) /\
  (0 <= r -> r <= c).
Proof.
  intros Hes Hc H.
  assert (Hgoal : (r = ERR_RLP_EBADARG \/ r = ERR_RLP_EILLEGALMEM \/
                   r = ERR_RLP_ENOMEM) \/ 0 <= r <= c);
    [|unfold ERR_RLP_EBADARG, ERR_RLP_EILLEGALMEM, ERR_RLP_ENOMEM, INT8_MIN
        in *; lia].
  unfold rlp_encode_list in H.
  destruct arr as [es|]; [|injection H as <- _; tauto].
  destruct ((o =? NULL) || (c =? 0)); [injection H as <- _; tauto|].
  destruct (preflight o c es c) as [err|] eqn:Ep.
  { injection H as <- _. left.
    destruct (preflight_error _ _ _ _ _ Ep); tauto. }
  destruct (encode_each o c es 0 m) as [[ret mr|total m1]|] eqn:Ee;
    [| |discriminate].
  - injection H as <- _. left.
    apply (encode_each_returned_code o c es 0 m ret mr (Hes es eq_refl)
             ltac:(lia) ltac:(lia) Ee).
  - destruct (encode_each_returns o c es 0 m (Hes es eq_refl) ltac:(lia)
                ltac:(lia)) as (res & R & Hm).
    rewrite Ee in R. injection R as <-.
    destruct (list_finish_result o c total m1 r m' ltac:(lia) ltac:(lia) H);
      tauto.
Qed.

Lemma rlp_encode_list_result_witness :
  (10 < 0 ->
   10 = ERR_RLP_EBADARG \/ 10 = ERR_RLP_EILLEGALMEM \/ 10 = ERR_RLP_ENOMEM) /\
  (0 <= 10 -> 10 <= 100).
Proof.
  refine (rlp_encode_list_result 1000 100 (Some tx_fields) tx_mem 10
            tx_after _ _ _).
  - intros es E. injection E as <-. repeat constructor; cbv; congruence.
  - lia.
  - reflexivity.
Defined.

(* -------------------------------------------------------------------------- *)
(** ** The hex dump of the demonstration *)

(** The two branches of the loop body print a byte in two digits. *)
Lemma printf_x_byte v :
  0 <= v < 256 ->
  (if v <? 0x10 then "0"%char :: printf_x v else printf_x v) = two_hex v.
Proof.
  intros Hv. unfold printf_x, two_hex. cbn [printf_x_loop].
  destruct (Z.ltb_spec v 16).
  - destruct (Z.eqb_spec (v / 16) 0) as [E|E]; [|exfalso; zlia].
    rewrite E. replace (v mod 16) with v by zlia. reflexivity.
  - destruct (Z.eqb_spec (v / 16) 0) as [E|E]; [exfalso; zlia|].
    destruct (Z.eqb_spec (v / 16 / 16) 0) as [E'|E']; [|exfalso; zlia].
    replace (v / 16 mod 16) with (v / 16) by zlia. reflexivity.
Qed.

Lemma debug_hexstring_loop_S fuel m a i b :
  debug_hexstring_loop (S fuel) m a i b =
  if i <=? b then
    match debug_hexstring_loop fuel m a (to_size_t (i + 1)) b with
    | Some rest =>
      Some ((if m (a + (i - 1)) <? 0x10
             then "0"%char :: printf_x (m (a + (i - 1)))
             else printf_x (m (a + (i - 1)))) ++ rest)
    | None => None
    end
  else Some [].
Proof. reflexivity. Qed.

Lemma debug_hexstring_loop_spec m a b n :
  forall i,
  b < 2 ^ 64 - 1 -> 1 <= i -> Z.of_nat n = b - i + 1 ->
  (forall x, a + (i - 1) <= x < a + b -> 0 <= m x < 256) ->
  debug_hexstring_loop (S n) m a i b =
  Some (concat (map two_hex (read_bytes m (a + (i - 1)) n))).
Proof.
  induction n as [|n IH]; intros i Hb Hi Hn Hm.
  - rewrite debug_hexstring_loop_S.
    destruct (Z.leb_spec i b); [lia|reflexivity].
  - rewrite debug_hexstring_loop_S. destruct (Z.leb_spec i b); [|lia].
    rewrite (to_size_t_small (i + 1)) by lia.
    rewrite (IH (i + 1)) by (try lia; intros x Hx; apply Hm; lia).
    rewrite printf_x_byte by (apply Hm; lia).
    rewrite read_bytes_cons. cbn [map concat].
    replace (a + (i + 1 - 1)) with (a + (i - 1) + 1) by lia. reflexivity.
Qed.

(** X16.  [debug_hexstring] prints nothing for a [NULL] address or a length
    of 0; for [nBytes] bytes it prints each byte in exactly two lower-case
    hexadecimal digits, in the order of the bytes, so [2 * nBytes]
    characters. *)
Theorem debug_hexstring_output a nBytes m :
  (a = NULL \/ nBytes = 0 -> debug_hexstring a nBytes m = Some []) /\
  (a <> NULL -> 0 < nBytes < 2 ^ 64 - 1 ->
   (forall x, a <= x < a + nBytes -> 0 <= m x < 256) ->
   debug_hexstring a nBytes m =
     Some (concat (map two_hex (read_bytes m a (Z.to_nat nBytes)))) /\
   Z.of_nat (length (concat (map two_hex (read_bytes m a (Z.to_nat nBytes)))))
   = 2 * nBytes).
Proof.
  unfold debug_hexstring. split.
  - intros [->| ->]; [reflexivity|].
    change (to_size_t 0 <=? 0) with true. now rewrite orb_true_r.
  - intros Ha Hn Hm. rewrite to_size_t_small by lia.
    destruct (Z.eqb_spec NULL a); [congruence|].
    destruct (Z.leb_spec nBytes 0); [lia|]. cbn [orb].
    split.
    + rewrite (debug_hexstring_loop_spec m a nBytes (Z.to_nat nBytes) 1)
        by (try lia; intros x Hx; apply Hm; lia).
      replace (a + (1 - 1)) with a by lia. reflexivity.
    + assert (Hlen : forall l, length (concat (map two_hex l))
                               = (2 * length l)%nat).
      { induction l as [|x l IHl]; [reflexivity|].
        cbn [map concat two_hex app length]. rewrite IHl. lia. }
      rewrite Hlen, read_bytes_length. lia.
Qed.

Lemma debug_hexstring_output_witness :
  debug_hexstring 2000 4 tx_mem =
    Some (concat (map two_hex (read_bytes tx_mem 2000 (Z.to_nat 4)))) /\
  Z.of_nat (length (concat (map two_hex
                              (read_bytes tx_mem 2000 (Z.to_nat 4)))))
  = 2 * 4.
Proof.
  refine (proj2 (debug_hexstring_output 2000 4 tx_mem) _ _ _).
  - cbv. congruence.
  - lia.
  - intros x Hx. unfold tx_mem, mem_of.
    destruct ((2000 <=? x) && (x <? 2000 + Z.of_nat (length _))); [|lia].
    assert (Hx' : x = 2000 \/ x = 2001 \/ x = 2002 \/ x = 2003) by lia.
    destruct Hx' as [ -> | [ -> | [ -> | -> ] ] ]; cbv; split; congruence.
Defined.

(* -------------------------------------------------------------------------- *)
(** ** A failure that is not atomic *)

(** X17.  The space the pre-flight loop asks for is not enough, and the
    failure that follows is not atomic.  A list of one byte string of 1 to 55
    bytes (not a single byte below 0x80) in a destination of exactly its
    declared length plus one passes the pre-flight loop and the element is
    encoded; only then is the destination found too small for the list
    header, and [rlp_encode_list] returns [ERR_RLP_ENOMEM] with the item
    header [0x80 + len] and the payload already written at the
    destination. *)
Theorem rlp_encode_list_late_enomem o e m :
  type e = RLP_TYPE_BYTE_ARRAY -> o <> NULL -> 1 <= len e <= 55 ->
  ~ (len e = 1 /\ m (buff e) < 0x80) ->
  rlp_memoverlap o (len e + 1) (buff e) (len e) = false ->
  exists m', rlp_encode_list o (len e + 1) (Some [e]) m
             = Some (ERR_RLP_ENOMEM, m') /\
    m' o = 0x80 + len e /\
    read_bytes m' (o + 1) (Z.to_nat (len e)) =
      read_bytes m (buff e) (Z.to_nat (len e)).
Proof.
  intros Ht Ho Hl Hv Hov. set (c := len e + 1) in *.
  assert (Ha : element_args_ok o c e).
  { unfold element_args_ok, rlp_type_mem_check. rewrite Ht. cbn.
    repeat split; try assumption; try congruence. unfold c. lia. }
  assert (HP : canonical_payload m e =
               read_bytes m (buff e) (Z.to_nat (len e))).
  { unfold canonical_payload. now rewrite Ht. }
  assert (HL : Z.of_nat (length (canonical_payload m e)) = len e).
  { rewrite HP, read_bytes_length. lia. }
  assert (Hhd : hd 0 (canonical_payload m e) = m (buff e)).
  { rewrite HP. apply hd_read_bytes. lia. }
  destruct (rlp_item_cases (canonical_payload m e)) as (_ & _ & C2 & _).
  rewrite HL, Hhd in C2. specialize (C2 Hl Hv).
  unfold rlp_encode_list.
  destruct (Z.eqb_spec o NULL); [contradiction|].
  destruct (Z.eqb_spec c 0); [unfold c in *; lia|]. cbn [orb preflight].
  rewrite (to_size_t_small (len e + 1)) by lia.
  destruct (Z.ltb_spec c (len e + 1)); [unfold c in *; lia|].
  rewrite Hov. cbn [encode_each].
  rewrite Z.add_0_r, Z.sub_0_r, (to_size_t_small c) by (unfold c; lia).
  destruct (rlp_encode_element_cases o c e m ltac:(lia)
              ltac:(unfold c; lia))
    as [(Hna & _)|[(_ & Hlt & _)|[(_ & _ & Ho' & _)|
        [(_ & _ & _ & HL55 & _)|(_ & _ & _ & Hn & m1 & R & Hrd & _)]]]];
    try contradiction; try (unfold c in *; lia); try congruence.
  rewrite R, C2 in *. cbn [length] in *. rewrite HP, read_bytes_length in *.
  destruct (Z.ltb_spec (Z.of_nat (S (Z.to_nat (len e)))) 0); [lia|].
  rewrite to_size_t_small by lia.
  destruct (list_finish_spec o c (0 + Z.of_nat (S (Z.to_nat (len e)))) m1
              ltac:(lia) ltac:(unfold c; lia) ltac:(unfold c; lia))
    as [Hno _].
  rewrite Hno.
  - exists m1. split; [reflexivity|].
    rewrite read_bytes_cons in Hrd. injection Hrd as Hfirst Hrest.
    split; assumption.
  - pose proof (rlp_list_header_length
                  (0 + Z.of_nat (S (Z.to_nat (len e)))) ltac:(lia)) as Hh.
    pose proof (byte_length_nonneg (0 + Z.of_nat (S (Z.to_nat (len e))))).
    destruct (_ <=? 55); unfold c; lia.
Qed.

Lemma rlp_encode_list_late_enomem_witness :
  exists m', rlp_encode_list 1000 (len cog + 1) (Some [cog]) tx_mem
             = Some (ERR_RLP_ENOMEM, m') /\
    m' 1000 = 0x80 + len cog /\
    read_bytes m' (1000 + 1) (Z.to_nat (len cog)) =
      read_bytes tx_mem (buff cog) (Z.to_nat (len cog)).
Proof.
  apply (rlp_encode_list_late_enomem 1000 cog tx_mem).
  - reflexivity.
  - cbv. congruence.
  - cbv. split; congruence.
  - cbv. intros [H _]. discriminate H.
  - reflexivity.
Defined.
